(** * dawn_utils.h: dynamic arrays, string builder, whole-file I/O, helpers

    A shallow embedding of [dawn_utils.h] and the proofs of its
    specification.  The C objects are modelled as follows.

    - [size_t] is a 64-bit unsigned integer, [int] a 32-bit and [long] a
      64-bit signed integer; they are values of [Z] and every arithmetic
      operation of the source is followed by its wrap-around.
    - A heap block is its number of slots together with the contents of the
      slots; a pointer is [None] for [NULL] or [Some] block.  Allocation
      sizes are counted in elements (for the string builder an element is a
      byte, so the count is the byte count of the source).
    - A macro or function that can stop the process, touch memory outside a
      block or loop forever has an [outcome].
    - The C library (the allocator, the streams) is a parameter that answers
      each call; what it was asked is recorded as a list of events. *)

From Stdlib Require Import ZArith Lia List String.
From Stdlib.Strings Require Import Byte.
From stdpp Require Import base numbers list list_numbers gmap strings.

Local Open Scope Z_scope.

(** ** Machine integers *)

Definition SIZE_WIDTH : Z := 64.
Definition SIZE_MAX : Z := 2 ^ SIZE_WIDTH - 1.
Definition PTRDIFF_MAX : Z := 2 ^ 63 - 1.
Definition LONG_MAX : Z := 2 ^ 63 - 1.
Definition INT_MAX : Z := 2 ^ 31 - 1.
Definition INT_MIN : Z := - 2 ^ 31.

(** Conversion to [size_t]: reduction modulo [2 ^ 64]. *)
Definition to_size_t (z : Z) : Z := z mod 2 ^ SIZE_WIDTH.

(** The two's complement wrap-around of a 32-bit [int]. *)
Definition to_int (z : Z) : Z := (z + 2 ^ 31) mod 2 ^ 32 - 2 ^ 31.

(** ** Outcomes *)

Inductive outcome (A : Type) : Type :=
| Returns (a : A)   (* control reaches the end *)
| AssertFailed      (* an [assert] stopped the process *)
| Undefined         (* an access outside an allocated block *)
| Diverges.         (* a loop that never exits *)

Arguments Returns {A} a.
Arguments AssertFailed {A}.
Arguments Undefined {A}.
Arguments Diverges {A}.

Definition bind {A B : Type} (m : outcome A) (k : A -> outcome B) : outcome B :=
  match m with
  | Returns a => k a
  | AssertFailed => AssertFailed
  | Undefined => Undefined
  | Diverges => Diverges
  end.

Notation "'do' x <- m ; k" := (bind m (fun x => k))
  (at level 10, x name, m at level 99, k at level 200).

(** ** Heap blocks *)

Section Memory.
Context {T : Type}.

Record block : Type := { slots : Z; cell : Z -> T }.

(** A pointer to the first slot of a block. *)
Definition pointer : Type := option block.

Definition in_block (b : block) (i : Z) : bool := (0 <=? i) && (i <? slots b).

(** [p[i]] *)
Definition load (p : pointer) (i : Z) : outcome T :=
  match p with
  | Some b => if in_block b i then Returns (cell b i) else Undefined
  | None => Undefined
  end.

(** [p[i] = v] *)
Definition store (p : pointer) (i : Z) (v : T) : outcome pointer :=
  match p with
  | Some b =>
      if in_block b i
      then Returns (Some {| slots := slots b;
                            cell := fun j => if j =? i then v else cell b j |})
      else Undefined
  | None => Undefined
  end.

(** [memcpy(dst + off, src, n * sizeof *dst)] *)
Definition memcpy (dst : pointer) (off : Z) (src : block) (n : Z) : outcome pointer :=
  match dst with
  | Some b =>
      if (0 <=? n) && (n <=? slots src) && (0 <=? off) && (off + n <=? slots b)
      then Returns (Some {| slots := slots b;
                            cell := fun j => if (off <=? j) && (j <? off + n)
                                             then cell src (j - off) else cell b j |})
      else Undefined
  | None => Undefined
  end.

(** The allocator: asked for [n] elements it answers [None] ([NULL]) or the
    indeterminate contents of the fresh slots. *)
Definition allocator : Type := Z -> option (Z -> T).

(** [malloc(n * sizeof(T))] *)
Definition malloc (heap : allocator) (n : Z) : pointer :=
  match heap n with
  | None => None
  | Some fresh => Some {| slots := n; cell := fresh |}
  end.

(** [realloc(p, n * sizeof(T))]: the old contents are kept up to the smaller
    of the two sizes, the other slots are indeterminate. *)
Definition realloc (heap : allocator) (p : pointer) (n : Z) : pointer :=
  match heap n with
  | None => None
  | Some fresh =>
      Some {| slots := n;
              cell := fun i => match p with
                               | Some b => if i <? slots b then cell b i else fresh i
                               | None => fresh i
                               end |}
  end.

(** The first [n] elements of a block, as a list. *)
Definition block_elems (b : block) (n : Z) : list T := cell b <$> seqZ 0 n.

Definition block_of_list (d : T) (l : list T) : block :=
  {| slots := Z.of_nat (List.length l); cell := fun i => nth (Z.to_nat i) l d |}.
End Memory.

Arguments block T : clear implicits.
Arguments pointer T : clear implicits.
Arguments allocator T : clear implicits.

(** ** Dynamic array *)

Definition DAWN_DA_DEFAULT_CAPACITY : Z := 16.

(** The [while] loop of [DAWN_DA_APPEND_MANY].  A [size_t] that is doubled
    [SIZE_WIDTH] times is 0, and stays 0: a loop that has not stopped by then
    never does ([double_until_diverges] below). *)
Fixpoint double_until (fuel : nat) (need capacity : Z) : option Z :=
  if need >=? capacity then
    match fuel with
    | O => None
    | S fuel' => double_until fuel' need (to_size_t (capacity * 2))
    end
  else Some capacity.

Definition doubling_fuel : nat := 65.

(** The capacity after [k] turns of that loop. *)
Fixpoint doublings (k : nat) (capacity : Z) : Z :=
  match k with
  | O => capacity
  | S k' => doublings k' (to_size_t (capacity * 2))
  end.

Section DynamicArray.
Context {T : Type}.

(** Any struct with the three fields the macros use. *)
Record DynArray : Type := { length : Z; capacity : Z; items : pointer T }.

Definition da_empty : DynArray := {| length := 0; capacity := 0; items := None |}.

(** The elements the array holds. *)
Definition da_elems (da : DynArray) : list T :=
  match items da with
  | Some b => block_elems b (length da)
  | None => []
  end.

Definition DAWN_DA_APPEND (heap : allocator T) (da : DynArray) (elem : T)
  : outcome DynArray :=
  do da <- (if length da =? capacity da then
              let capacity1 := to_size_t (capacity da * 2) in
              let capacity2 := if capacity1 =? 0 then DAWN_DA_DEFAULT_CAPACITY
                               else capacity1 in
              match realloc heap (items da) capacity2 with
              | None => AssertFailed
              | Some dawn_temp =>
                  Returns {| length := length da; capacity := capacity2;
                             items := Some dawn_temp |}
              end
            else Returns da);
  do items' <- store (items da) (length da) elem;
  Returns {| length := to_size_t (length da + 1); capacity := capacity da;
             items := items' |}.

Definition DAWN_DA_APPEND_MANY (heap : allocator T) (da : DynArray)
    (elems : block T) (elems_count : Z) : outcome DynArray :=
  do da <- (if to_size_t (length da + elems_count) >=? capacity da then
              let capacity1 := if capacity da =? 0 then DAWN_DA_DEFAULT_CAPACITY
                               else capacity da in
              match double_until doubling_fuel
                      (to_size_t (length da + elems_count)) capacity1 with
              | None => Diverges
              | Some capacity2 =>
                  match realloc heap (items da) capacity2 with
                  | None => AssertFailed
                  | Some dawn_temp =>
                      Returns {| length := length da; capacity := capacity2;
                                 items := Some dawn_temp |}
                  end
              end
            else Returns da);
  do items' <- memcpy (items da) (length da) elems elems_count;
  Returns {| length := to_size_t (length da + elems_count); capacity := capacity da;
             items := items' |}.

(** [for (size_t i = length; i > 0; i--) items[i] = items[i-1];] *)
Fixpoint shift_right (i : nat) (p : pointer T) : outcome (pointer T) :=
  match i with
  | O => Returns p
  | S i' =>
      do v <- load p (Z.of_nat i');
      do p' <- store p (Z.of_nat i) v;
      shift_right i' p'
  end.

Definition DAWN_DA_PREPEND (heap : allocator T) (da : DynArray) (elem : T)
  : outcome DynArray :=
  do da <- (if length da =? capacity da then
              let capacity1 := to_size_t (capacity da * 2) in
              let capacity2 := if capacity1 =? 0 then DAWN_DA_DEFAULT_CAPACITY
                               else capacity1 in
              match realloc heap (items da) capacity2 with
              | None => AssertFailed
              | Some dawn_temp =>
                  Returns {| length := length da; capacity := capacity2;
                             items := Some dawn_temp |}
              end
            else Returns da);
  do items1 <- shift_right (Z.to_nat (length da)) (items da);
  do items2 <- store items1 0 elem;
  Returns {| length := to_size_t (length da + 1); capacity := capacity da;
             items := items2 |}.

(** The struct of a dynamic array as the macros keep it: [length <=
    capacity], and the backing block has [capacity] slots and is [NULL]
    when the capacity is 0. *)
Definition da_valid (da : DynArray) : Prop :=
  0 <= length da <= capacity da /\ capacity da <= SIZE_MAX /\
  match items da with
  | Some b => slots b = capacity da
  | None => capacity da = 0
  end.

(** The growth step that [DAWN_DA_APPEND] and [DAWN_DA_PREPEND] both
    spell out. *)
Definition grow_when_full (heap : allocator T) (da : DynArray) : outcome DynArray :=
  if length da =? capacity da then
    let capacity1 := to_size_t (capacity da * 2) in
    let capacity2 := if capacity1 =? 0 then DAWN_DA_DEFAULT_CAPACITY
                     else capacity1 in
    match realloc heap (items da) capacity2 with
    | None => AssertFailed
    | Some dawn_temp =>
        Returns {| length := length da; capacity := capacity2;
                   items := Some dawn_temp |}
    end
  else Returns da.

(** The invariant of the arrays reached from the empty one. *)
Definition da_inv (da : DynArray) : Prop :=
  da_valid da /\
  (capacity da = 0 \/
   exists k : nat, capacity da = DAWN_DA_DEFAULT_CAPACITY * 2 ^ Z.of_nat k).

(** Sequences of operations. *)
Inductive da_op : Type :=
| Append (elem : T)
| AppendMany (elems : block T) (elems_count : Z)
| Prepend (elem : T).

Definition da_apply (heap : allocator T) (da : DynArray) (op : da_op)
  : outcome DynArray :=
  match op with
  | Append elem => DAWN_DA_APPEND heap da elem
  | AppendMany elems elems_count => DAWN_DA_APPEND_MANY heap da elems elems_count
  | Prepend elem => DAWN_DA_PREPEND heap da elem
  end.

(** Runs the operations in order, each against the allocator of its step,
    and collects the array after every operation. *)
Fixpoint da_run (steps : list (allocator T * da_op)) (da : DynArray)
  : outcome (list DynArray) :=
  match steps with
  | [] => Returns []
  | (heap, op) :: steps' =>
      do da' <- da_apply heap da op;
      do rest <- da_run steps' da';
      Returns (da' :: rest)
  end.
End DynamicArray.

Arguments DynArray T : clear implicits.
Arguments da_op T : clear implicits.

(** An allocator that never fails and hands out blocks filled with [d]. *)
Definition heap_fill {T : Type} (d : T) : allocator T := fun _ => Some (fun _ => d).

(** An allocator that always fails. *)
Definition heap_exhausted {T : Type} : allocator T := fun _ => None.

(** ** String builder *)

(** [typedef struct { size_t length; size_t capacity; char *items; } DawnStringBuilder;] *)
Definition DawnStringBuilder : Type := DynArray byte.

Definition DAWN_SB_APPEND_BUF (heap : allocator byte) (sb : DawnStringBuilder)
    (buf : block byte) (bufsize : Z) : outcome DawnStringBuilder :=
  DAWN_DA_APPEND_MANY heap sb buf bufsize.

(** ** Static functions *)

(** [((x%n) + n) % n] on [int]: [%] truncates towards zero, as [Z.rem]. *)
Definition dawn_mod (x n : Z) : Z :=
  to_int (Z.rem (to_int (to_int (Z.rem x n) + n)) n).

(** ** Command line arguments *)

(** [char **]: a pointer into the array of arguments. *)
Record arg_pointer : Type := { arg_array : list string; arg_index : nat }.

(** [dawn_shift_args(&argc, &argv)]: the argument returned and the new values
    of [argc] and [argv]. *)
Definition dawn_shift_args (argc : Z) (argv : arg_pointer)
  : outcome (string * (Z * arg_pointer)) :=
  if argc >? 0 then
    match arg_array argv !! arg_index argv with
    | Some arg =>
        let argv' := {| arg_array := arg_array argv; arg_index := S (arg_index argv) |} in
        let argc' := to_int (argc - 1) in
        Returns (arg, (argc', argv'))
    | None => Undefined
    end
  else AssertFailed.

(** [n] successive calls: the arguments returned, in the order of the calls,
    and what is left. *)
Fixpoint shift_args_times (n : nat) (argc : Z) (argv : arg_pointer)
  : outcome (list string * (Z * arg_pointer)) :=
  match n with
  | O => Returns ([], (argc, argv))
  | S n' =>
      do r <- dawn_shift_args argc argv;
      do rs <- shift_args_times n' (fst (snd r)) (snd (snd r));
      Returns (fst r :: fst rs, snd rs)
  end.

(** ** Streams *)

Inductive whence : Type := SEEK_SET | SEEK_END.

(** The calls a function makes to [stdio], and what it prints on [stderr]. *)
Inductive event : Type :=
| call_fopen (filepath mode : string)
| call_fseek (offset : Z) (origin : whence)
| call_ftell
| call_fread (count : Z)
| call_ferror
| call_fwrite (count : Z)
| call_fclose
| to_stderr (message : string).

(** A stream opened for reading, by the answers it gives. *)
Record stream : Type := {
  seek_end : Z;            (* [fseek(f, 0, SEEK_END)] *)
  tell_end : Z;            (* [ftell(f)] at the end *)
  seek_set : Z;            (* [fseek(f, 0, SEEK_SET)] *)
  chars : list byte;       (* the characters the stream delivers from its start *)
  read_error : option Z    (* a read error after that many characters *)
}.

(** [fread(buf, 1, count, f)] from the start of the stream: the characters
    until [count] of them, the end of the stream or the read error. *)
Definition fread_size (f : stream) (count : Z) : Z :=
  let available := Z.min count (Z.of_nat (List.length (chars f))) in
  match read_error f with
  | Some k => if (0 <=? k) && (k <? available) then k else available
  | None => available
  end.

Definition fread (f : stream) (buf : block byte) (count : Z) : Z * block byte :=
  let size := fread_size f count in
  (size, {| slots := slots buf;
            cell := fun i => if (0 <=? i) && (i <? size)
                             then nth (Z.to_nat i) (chars f) x00 else cell buf i |}).

(** [ferror(f)] after that [fread]. *)
Definition ferror (f : stream) (count : Z) : bool :=
  match read_error f with
  | Some k => (0 <=? k) && (k <? Z.min count (Z.of_nat (List.length (chars f))))
  | None => false
  end.

(** What [dawn_read_entire_file] finds around it. *)
Record read_env : Type := {
  fopen_r : string -> option stream;   (* [fopen(filepath, "r")] *)
  buf_heap : allocator byte;           (* answers [malloc(f_size)] *)
  sb_heap : allocator byte             (* answers the [realloc] of the string builder *)
}.

(** A stream opened for writing takes a number of characters, or all of
    them ([None]). *)
Record out_stream : Type := { accepts : option Z }.

Record write_env : Type := {
  fopen_w : string -> option out_stream   (* [fopen(filepath, "w+")] *)
}.

(** [fwrite(p, 1, count, f)]: the number of characters the stream took, and
    these characters. *)
Definition fwrite_size (count : Z) (f : out_stream) : Z :=
  match accepts f with
  | Some k => Z.max 0 (Z.min count k)
  | None => count
  end.

Definition fwrite (p : pointer byte) (count : Z) (f : out_stream)
  : outcome (Z * list byte) :=
  let size := fwrite_size count f in
  match p with
  | Some b => if count <=? slots b then Returns (size, block_elems b size) else Undefined
  | None => if count =? 0 then Returns (size, []) else Undefined
  end.

(** A call of one of the two functions: what it returned, the string builder
    behind [content] afterwards, the events, and for a write the characters
    that [fwrite] took ([None] when no file was opened). *)
Record call : Type := {
  result : outcome bool;
  content_after : option DawnStringBuilder;
  trace : list event;
  written : option (list byte)
}.

Definition newline : string := String (Ascii.ascii_of_nat 10) EmptyString.

(** The [defer:] label of [dawn_read_entire_file]; [free(buf)] returns the
    buffer to the allocator and leaves no trace here. *)
Definition read_defer (f : option stream) (buf : pointer byte) (result : bool)
    (content : option DawnStringBuilder) (log : list event) : call :=
  {| result := Returns result;
     content_after := content;
     trace := log ++ match f with Some _ => [call_fclose] | None => [] end;
     written := None |}.

Definition dawn_read_entire_file (env : read_env) (filepath : option string)
    (content : option DawnStringBuilder) : call :=
  match filepath, content with
  | Some path, Some sb =>
      let log := [call_fopen path "r"] in
      match fopen_r env path with
      | None =>
          read_defer None None false content
            (log ++ [to_stderr ("Failed to open file: " +:+ path +:+ newline)])
      | Some f =>
          let log := log ++ [call_fseek 0 SEEK_END] in
          if negb (seek_end f =? 0) then
            read_defer (Some f) None false content
              (log ++ [to_stderr "Failed to get to the end of file"])
          else
            let log := log ++ [call_ftell] in
            let f_size := tell_end f in
            if f_size <? 0 then
              read_defer (Some f) None false content
                (log ++ [to_stderr "Failed to get the size of the file"])
            else
              let log := log ++ [call_fseek 0 SEEK_SET] in
              if negb (seek_set f =? 0) then
                read_defer (Some f) None false content
                  (log ++ [to_stderr "Failed to get to the start of file"])
              else
                match malloc (buf_heap env) (to_size_t f_size) with
                | None =>
                    read_defer (Some f) None false content
                      (log ++ [to_stderr ("Failed to allocate memory for content from "
                                          +:+ path +:+ newline)])
                | Some buf =>
                    let log := log ++ [call_fread (to_size_t f_size)] in
                    let '(read_size, buf) := fread f buf (to_size_t f_size) in
                    let short := read_size <? to_size_t f_size in
                    let log := if short then log ++ [call_ferror] else log in
                    if short && ferror f (to_size_t f_size) then
                      read_defer (Some f) (Some buf) false content
                        (log ++ [to_stderr ("There was an error while reading "
                                            +:+ path +:+ newline)])
                    else
                      match DAWN_SB_APPEND_BUF (sb_heap env) sb buf f_size with
                      | Returns sb' => read_defer (Some f) (Some buf) true (Some sb') log
                      | AssertFailed =>
                          {| result := AssertFailed; content_after := content;
                             trace := log; written := None |}
                      | Undefined =>
                          {| result := Undefined; content_after := content;
                             trace := log; written := None |}
                      | Diverges =>
                          {| result := Diverges; content_after := content;
                             trace := log; written := None |}
                      end
                end
      end
  | _, _ =>
      {| result := Returns false; content_after := content; trace := []; written := None |}
  end.

(** The [defer:] label of [dawn_write_entire_file]. *)
Definition write_defer (f : option out_stream) (result : bool)
    (content : option DawnStringBuilder) (log : list event)
    (data : option (list byte)) : call :=
  {| result := Returns result;
     content_after := content;
     trace := log ++ match f with Some _ => [call_fclose] | None => [] end;
     written := data |}.

Definition dawn_write_entire_file (env : write_env) (filepath : option string)
    (content : option DawnStringBuilder) : call :=
  match filepath, content with
  | Some path, Some sb =>
      let log := [call_fopen path "w+"] in
      match fopen_w env path with
      | None =>
          write_defer None false content (log ++ [to_stderr "Failed to open file!"]) None
      | Some f =>
          let log := log ++ [call_fwrite (length sb)] in
          match fwrite (items sb) (length sb) f with
          | Returns (size, data) =>
              if size <? length sb then
                write_defer (Some f) false content
                  (log ++ [to_stderr ("ERROR: There was an error when writing content to "
                                      +:+ path +:+ newline)])
                  (Some data)
              else write_defer (Some f) true content log (Some data)
          | _ =>
              {| result := Undefined; content_after := content;
                 trace := log; written := None |}
          end
      end
  | _, _ =>
      {| result := Returns false; content_after := content; trace := []; written := None |}
  end.

(** ** A POSIX file system

    Files are sequences of bytes.  A stream opened for reading delivers the
    bytes of the file unchanged (POSIX streams do not translate line ends)
    and reports the length of the file as its end position, unless the file
    is one that reports another size (the attribute files of [/sys] report a
    page and deliver a few bytes; a file may be cut short after [ftell]).  A
    stream opened with ["w+"] creates or truncates the file.  [fwrite] takes
    characters into the buffer of the stream and they reach the file when the
    stream is flushed, at [fclose] at the latest; when that flush fails the
    characters still in the buffer are lost, and so is the news of it, for
    the source does not look at what [fclose] returns.  Any call may fail. *)

Record read_faults : Type := {
  open_fault : bool;
  seek_end_fault : bool;
  tell_fault : bool;
  seek_set_fault : bool;
  read_fault : option Z;
  reported_size : option Z   (* the end position, when it is not the length *)
}.

Definition posix_stream (data : list byte) (faults : read_faults) : stream :=
  let size := match reported_size faults with
              | Some n => n
              | None => Z.of_nat (List.length data)
              end in
  {| seek_end := if seek_end_fault faults then -1 else 0;
     tell_end := if tell_fault faults || (LONG_MAX <? size) then -1 else size;
     seek_set := if seek_set_fault faults then -1 else 0;
     chars := data;
     read_error := read_fault faults |}.

Definition posix_read_env (fs : gmap string (list byte)) (faults : read_faults)
    (buf_heap sb_heap : allocator byte) : read_env :=
  {| fopen_r := fun path =>
       match fs !! path with
       | Some data => if open_fault faults then None else Some (posix_stream data faults)
       | None => None
       end;
     buf_heap := buf_heap;
     sb_heap := sb_heap |}.

Record write_faults : Type := {
  create_fault : bool;
  short_write : option Z;    (* [fwrite] reports only that many characters taken *)
  lost_at_close : option Z   (* the flush of [fclose] fails after that many *)
}.

Definition posix_write_env (faults : write_faults) : write_env :=
  {| fopen_w := fun _ =>
       if create_fault faults then None
       else Some {| accepts := short_write faults |} |}.

Definition no_read_faults : read_faults :=
  {| open_fault := false; seek_end_fault := false; tell_fault := false;
     seek_set_fault := false; read_fault := None; reported_size := None |}.

Definition no_write_faults : write_faults :=
  {| create_fault := false; short_write := None; lost_at_close := None |}.

(** The file system after a call of [dawn_write_entire_file] on [path]: of
    the characters [fwrite] took, the file holds those that were flushed. *)
Definition posix_after (fs : gmap string (list byte)) (faults : write_faults)
    (path : string) (c : call) : gmap string (list byte) :=
  match written c with
  | Some data =>
      <[path := match lost_at_close faults with
                | Some k => take (Z.to_nat k) data
                | None => data
                end]> fs
  | None => fs
  end.

(** ** The string builder over C strings *)




(** ** The sequence a dynamic array stands for *)

(** What an operation does to the sequence of elements. *)
Definition op_model {T : Type} (l : list T) (op : da_op T) : list T :=
  match op with
  | Append elem => l ++ [elem]
  | AppendMany elems elems_count => l ++ block_elems elems elems_count
  | Prepend elem => elem :: l
  end.

(** The sequences after each operation. *)
Fixpoint run_model {T : Type} (l : list T) (ops : list (da_op T)) : list (list T) :=
  match ops with
  | [] => []
  | op :: ops' => op_model l op :: run_model (op_model l op) ops'
  end.

(** ** Counting events *)

Definition is_fopen (e : event) : bool :=
  match e with call_fopen _ _ => true | _ => false end.

Definition is_fclose (e : event) : bool :=
  match e with call_fclose => true | _ => false end.

Definition is_stderr (e : event) : bool :=
  match e with to_stderr _ => true | _ => false end.

Definition count_events (p : event -> bool) (t : list event) : nat :=
  List.length (List.filter p t).

(** * Proofs *)

(** ** Machine integers *)

Lemma to_size_t_small z : 0 <= z <= SIZE_MAX -> to_size_t z = z.
Proof. unfold to_size_t, SIZE_MAX, SIZE_WIDTH. intros H. apply Z.mod_small. lia. Qed.

Lemma to_size_t_range z : 0 <= to_size_t z <= SIZE_MAX.
Proof.
  unfold to_size_t, SIZE_MAX, SIZE_WIDTH.
  pose proof (Z.mod_pos_bound z (2 ^ 64)). lia.
Qed.

Lemma to_size_t_double z :
  0 <= z <= SIZE_MAX -> SIZE_MAX < z * 2 -> to_size_t (z * 2) = z * 2 - 2 ^ 64.
Proof.
  unfold to_size_t, SIZE_MAX, SIZE_WIDTH. intros H1 H2.
  symmetry. apply (Z.mod_unique_pos _ _ 1). all: lia.
Qed.

Lemma to_int_small z : INT_MIN <= z <= INT_MAX -> to_int z = z.
Proof.
  unfold to_int, INT_MIN, INT_MAX. intros H.
  rewrite Z.mod_small by lia. lia.
Qed.

Lemma rem_plus_mod x n : 0 < n -> 0 <= Z.rem x n + n -> Z.rem (Z.rem x n + n) n = x mod n.
Proof.
  intros Hn Hpos.
  rewrite Z.rem_mod_nonneg by lia.
  pose proof (Z.quot_rem' x n) as Hx.
  replace (Z.rem x n + n) with (x + (1 - Z.quot x n) * n) by lia.
  apply Z_mod_plus_full.
Qed.

Lemma rem_bounds x n : 0 < n -> - n < Z.rem x n < n.
Proof. intros Hn. pose proof (Z.rem_bound_abs x n). lia. Qed.

(** ** The doubling loop *)

Lemma double_until_zero fuel need : 0 <= need -> double_until fuel need 0 = None.
Proof.
  intros Hneed. induction fuel as [| fuel IH]; simpl.
  - destruct (Z.geb_spec need 0); [done | lia].
  - destruct (Z.geb_spec need 0); [| lia]. exact IH.
Qed.

(** With fuel left the loop stops at the first doubling above [need]. *)
Lemma double_until_spec fuel need capacity :
  0 < capacity -> 0 <= need <= PTRDIFF_MAX -> need < capacity * 2 ^ Z.of_nat fuel ->
  exists j : nat,
    double_until fuel need capacity = Some (capacity * 2 ^ Z.of_nat j) /\
    need < capacity * 2 ^ Z.of_nat j /\
    (forall i : nat, (i < j)%nat -> capacity * 2 ^ Z.of_nat i <= need).
Proof.
  revert capacity. induction fuel as [| fuel IH]; intros capacity Hcap Hneed Hfuel.
  - exists 0%nat. simpl in *. destruct (Z.geb_spec need capacity); [lia |].
    split; [f_equal; lia |]. split; [lia |]. intros i Hi. lia.
  - simpl. destruct (Z.geb_spec need capacity) as [Hge | Hlt].
    + assert (Hdouble : to_size_t (capacity * 2) = capacity * 2).
      { apply to_size_t_small. unfold SIZE_MAX, SIZE_WIDTH, PTRDIFF_MAX in *. lia. }
      rewrite Hdouble.
      destruct (IH (capacity * 2)) as (j & Hj & Hlt & Hmin); [lia | done | |].
      { rewrite Nat2Z.inj_succ, Z.pow_succ_r in Hfuel by lia. lia. }
      exists (S j). rewrite Nat2Z.inj_succ, Z.pow_succ_r by lia.
      replace (capacity * (2 * 2 ^ Z.of_nat j)) with (capacity * 2 * 2 ^ Z.of_nat j) by lia.
      split; [done |]. split; [done |].
      intros [| i] Hi; [simpl; lia |].
      rewrite Nat2Z.inj_succ, Z.pow_succ_r by lia.
      specialize (Hmin i ltac:(lia)). lia.
    + exists 0%nat. simpl. split; [f_equal; lia |]. split; [lia |]. intros i Hi. lia.
Qed.

(** The loop only ever stops above [need], at a [size_t]. *)
Lemma double_until_stops fuel need capacity c :
  0 <= capacity <= SIZE_MAX -> double_until fuel need capacity = Some c ->
  need < c /\ 0 <= c <= SIZE_MAX.
Proof.
  revert capacity. induction fuel as [| fuel IH]; intros capacity Hcap; simpl.
  - destruct (Z.geb_spec need capacity); [done |]. intros [= <-]. lia.
  - destruct (Z.geb_spec need capacity).
    + apply IH, to_size_t_range.
    + intros [= <-]. lia.
Qed.

(** From 16 times a power of two the loop stops at 16 times a power of two. *)
Lemma double_until_pow2 fuel need (k : nat) c :
  0 <= need -> 16 * 2 ^ Z.of_nat k <= SIZE_MAX ->
  double_until fuel need (16 * 2 ^ Z.of_nat k) = Some c ->
  exists k' : nat, c = 16 * 2 ^ Z.of_nat k'.
Proof.
  intros Hneed. revert k. induction fuel as [| fuel IH]; intros k Hk; simpl.
  - destruct (Z.geb_spec need (16 * 2 ^ Z.of_nat k)); [done |]. intros [= <-]. eauto.
  - destruct (Z.geb_spec need (16 * 2 ^ Z.of_nat k)); [| intros [= <-]; eauto].
    assert (Hpos : 0 < 2 ^ Z.of_nat k) by (apply Z.pow_pos_nonneg; lia).
    destruct (Z_le_gt_dec (16 * 2 ^ Z.of_nat k * 2) SIZE_MAX) as [Hfit | Hwrap].
    + rewrite to_size_t_small by lia.
      replace (16 * 2 ^ Z.of_nat k * 2) with (16 * 2 ^ Z.of_nat (S k))
        by (rewrite Nat2Z.inj_succ, Z.pow_succ_r; lia).
      apply IH. rewrite Nat2Z.inj_succ, Z.pow_succ_r; lia.
    + assert (Hk60 : Z.of_nat k = 59).
      { unfold SIZE_MAX, SIZE_WIDTH in *.
        destruct (Z_lt_le_dec (Z.of_nat k) 59) as [Hlt | Hge].
        - assert (2 ^ Z.of_nat k <= 2 ^ 58) by (apply Z.pow_le_mono_r; lia). lia.
        - destruct (Z_le_gt_dec (Z.of_nat k) 59) as [Hle | Hgt]; [lia |].
          assert (2 ^ 60 <= 2 ^ Z.of_nat k) by (apply Z.pow_le_mono_r; lia). lia. }
      rewrite Hk60. change (to_size_t (16 * 2 ^ 59 * 2)) with 0.
      rewrite double_until_zero by done. done.
Qed.

(** [double_until] with [doubling_fuel] is the loop of the source: [None]
    stands for a loop that no amount of fuel lets stop. *)
Lemma doublings_mod k capacity :
  doublings (S k) capacity = (capacity * 2 ^ Z.of_nat (S k)) mod 2 ^ 64.
Proof.
  revert capacity. induction k as [| k IH]; intros capacity.
  - reflexivity.
  - change (doublings (S (S k)) capacity) with (doublings (S k) (to_size_t (capacity * 2))).
    rewrite IH. unfold to_size_t, SIZE_WIDTH.
    rewrite Z.mul_mod_idemp_l by lia.
    f_equal. rewrite (Nat2Z.inj_succ (S k)), Z.pow_succ_r by lia. lia.
Qed.

Lemma doublings_zero k capacity : (64 <= k)%nat -> doublings k capacity = 0.
Proof.
  intros Hk. destruct k as [| k]; [lia |]. rewrite doublings_mod.
  replace (Z.of_nat (S k)) with (64 + (Z.of_nat (S k) - 64)) by lia.
  rewrite Z.pow_add_r by lia.
  replace (capacity * (2 ^ 64 * 2 ^ (Z.of_nat (S k) - 64)))
    with (capacity * 2 ^ (Z.of_nat (S k) - 64) * 2 ^ 64) by lia.
  apply Z_mod_mult.
Qed.

Lemma double_until_None fuel need capacity :
  double_until fuel need capacity = None <->
  forall k : nat, (k <= fuel)%nat -> doublings k capacity <= need.
Proof.
  revert capacity. induction fuel as [| fuel IH]; intros capacity; simpl.
  - destruct (Z.geb_spec need capacity) as [Hge | Hlt]; split; try done.
    + intros _ k Hk. replace k with 0%nat by lia. simpl. lia.
    + intros H. specialize (H 0%nat ltac:(lia)). simpl in H. lia.
  - destruct (Z.geb_spec need capacity) as [Hge | Hlt].
    + rewrite IH. split.
      * intros H [| k] Hk; simpl; [lia |]. apply H. lia.
      * intros H k Hk. apply (H (S k)). lia.
    + split; [done |]. intros H. specialize (H 0%nat ltac:(lia)). simpl in H. lia.
Qed.

Lemma double_until_diverges need capacity :
  0 <= need -> double_until doubling_fuel need capacity = None ->
  forall fuel, double_until fuel need capacity = None.
Proof.
  intros Hneed Hnone fuel. rewrite double_until_None in *.
  intros k _. destruct (Nat.le_gt_cases k doubling_fuel) as [Hk | Hk].
  - by apply Hnone.
  - rewrite doublings_zero; [done |]. unfold doubling_fuel in Hk. lia.
Qed.

(** And a loop that stops does so whatever fuel is left over. *)
Lemma double_until_more_fuel fuel extra need capacity c :
  double_until fuel need capacity = Some c ->
  double_until (fuel + extra) need capacity = Some c.
Proof.
  revert capacity. induction fuel as [| fuel IH]; intros capacity; simpl.
  - destruct (Z.geb_spec need capacity) as [Hge | Hlt]; [done |].
    intros [= <-]. destruct extra; simpl; destruct (Z.geb_spec need capacity); done || lia.
  - destruct (need >=? capacity); [apply IH | done].
Qed.

(** ** Blocks *)

Section BlockFacts.
Context {T : Type}.
Implicit Types (b : block T) (p : pointer T).

Lemma block_elems_ext b b' n :
  (forall i, 0 <= i < n -> cell b i = cell b' i) -> block_elems b n = block_elems b' n.
Proof.
  intros H. unfold block_elems. apply list_fmap_ext.
  intros k i Hi. apply lookup_seqZ in Hi. apply H. lia.
Qed.

Lemma block_elems_nil b n : n <= 0 -> block_elems b n = [].
Proof. intros H. unfold block_elems. by rewrite seqZ_nil. Qed.

Lemma length_block_elems b n : List.length (block_elems b n) = Z.to_nat n.
Proof. unfold block_elems. by rewrite length_fmap, length_seqZ. Qed.

Lemma block_elems_app b n m :
  0 <= n -> 0 <= m ->
  block_elems b (n + m) = block_elems b n ++ ((fun j => cell b (n + j)) <$> seqZ 0 m).
Proof.
  intros Hn Hm. unfold block_elems.
  rewrite seqZ_app, fmap_app by done. f_equal.
  replace (0 + n) with (n + 0) by lia.
  rewrite <- (fmap_add_seqZ n 0), <- list_fmap_compose. simpl.
  apply list_fmap_ext. intros k i _. reflexivity.
Qed.

Lemma block_elems_snoc b n : 0 <= n -> block_elems b (n + 1) = block_elems b n ++ [cell b n].
Proof.
  intros Hn. rewrite block_elems_app by lia. f_equal.
  rewrite seqZ_cons, seqZ_nil by lia. simpl. do 2 f_equal. lia.
Qed.

Lemma block_elems_cons b n :
  0 <= n -> block_elems b (n + 1) = cell b 0 :: ((fun j => cell b (1 + j)) <$> seqZ 0 n).
Proof.
  intros Hn. rewrite (Z.add_comm n 1), block_elems_app by lia.
  unfold block_elems at 1. rewrite seqZ_cons, seqZ_nil by lia. reflexivity.
Qed.

Lemma block_elems_of_list (d : T) (l : list T) :
  block_elems (block_of_list d l) (Z.of_nat (List.length l)) = l.
Proof.
  apply list_eq. intros i. unfold block_elems. rewrite list_lookup_fmap.
  destruct (decide (i < List.length l)%nat) as [Hi | Hi].
  - rewrite lookup_seqZ_lt by lia. cbn. rewrite Z.add_0_l, Nat2Z.id.
    destruct (lookup_lt_is_Some_2 l i Hi) as [x Hx]. rewrite Hx.
    f_equal. by apply nth_lookup_Some.
  - rewrite lookup_seqZ_ge by lia. simpl. symmetry. apply lookup_ge_None. lia.
Qed.

(** The loop of [DAWN_DA_PREPEND] moves the first [k] elements one slot up. *)
Lemma shift_right_spec (k : nat) b :
  Z.of_nat k < slots b ->
  exists b', shift_right k (Some b) = Returns (Some b') /\
             slots b' = slots b /\
             forall j, cell b' j = if (1 <=? j) && (j <=? Z.of_nat k)
                                   then cell b (j - 1) else cell b j.
Proof.
  revert b. induction k as [| k IH]; intros b Hk.
  - exists b. split; [done |]. split; [done |]. intros j.
    destruct (Z.leb_spec 1 j), (Z.leb_spec j (Z.of_nat 0)); simpl; try done. lia.
  - cbn [shift_right load store bind]. unfold in_block.
    destruct (Z.leb_spec 0 (Z.of_nat k)); [| lia].
    destruct (Z.ltb_spec (Z.of_nat k) (slots b)); [| lia].
    cbn [andb bind store]. unfold in_block.
    destruct (Z.leb_spec 0 (Z.of_nat (S k))); [| lia].
    destruct (Z.ltb_spec (Z.of_nat (S k)) (slots b)); [| lia].
    cbn [andb bind].
    edestruct IH as (b' & Hrun & Hslots & Hcell); [| rewrite Hrun]; [simpl; lia |].
    exists b'. split; [done |]. split; [done |]. intros j. rewrite Hcell. simpl.
    destruct (Z.leb_spec 1 j), (Z.leb_spec j (Z.of_nat k)),
      (Z.leb_spec j (Z.of_nat (S k))), (Z.eqb_spec j (Z.of_nat (S k))),
      (Z.eqb_spec (j - 1) (Z.of_nat (S k))); simpl; try lia; try done.
    subst j. f_equal. lia.
Qed.

(** Past the end of the block the loop leaves the block. *)
Lemma shift_right_outside (k : nat) p :
  (0 < k)%nat ->
  match p with Some b => slots b <= Z.of_nat k | None => True end ->
  shift_right k p = Undefined.
Proof.
  intros Hk Hp. destruct k as [| k]; [lia |].
  cbn [shift_right]. destruct p as [b |]; [| done].
  cbn [load]. destruct (in_block b (Z.of_nat k)); [| done].
  cbn [bind store]. unfold in_block.
  destruct (Z.ltb_spec (Z.of_nat (S k)) (slots b)); [lia |].
  by rewrite andb_false_r.
Qed.
End BlockFacts.

(** ** The dynamic array macros *)

Section MacroFacts.
Context {T : Type}.
Implicit Types (da : DynArray T) (heap : allocator T).

Lemma append_unfold heap da elem :
  DAWN_DA_APPEND heap da elem =
  do da <- grow_when_full heap da;
  do items' <- store (items da) (length da) elem;
  Returns {| length := to_size_t (length da + 1); capacity := capacity da;
             items := items' |}.
Proof. reflexivity. Qed.

Lemma prepend_unfold heap da elem :
  DAWN_DA_PREPEND heap da elem =
  do da <- grow_when_full heap da;
  do items1 <- shift_right (Z.to_nat (length da)) (items da);
  do items2 <- store items1 0 elem;
  Returns {| length := to_size_t (length da + 1); capacity := capacity da;
             items := items2 |}.
Proof. reflexivity. Qed.

(** What the growth step leaves: the struct is consistent except that,
    when the doubling wrapped around, the capacity is below the length. *)
Lemma grow_when_full_returns heap da da1 :
  da_valid da -> grow_when_full heap da = Returns da1 ->
  length da1 = length da /\
  0 <= capacity da1 <= SIZE_MAX /\
  match items da1 with
  | Some b1 => slots b1 = capacity da1 /\
               forall i, 0 <= i < length da ->
                         cell b1 i = match items da with
                                     | Some b => cell b i
                                     | None => cell b1 i
                                     end
  | None => capacity da1 = 0
  end /\
  capacity da1 =
    (if length da =? capacity da
     then if to_size_t (capacity da * 2) =? 0 then DAWN_DA_DEFAULT_CAPACITY
          else to_size_t (capacity da * 2)
     else capacity da).
Proof.
  intros (Hlen & Hcap & Hitems). unfold grow_when_full.
  destruct (Z.eqb_spec (length da) (capacity da)) as [Hfull | Hroom].
  - unfold realloc. destruct (heap _) as [fresh |]; [| done].
    intros [= <-]. cbn [length capacity items].
    pose proof (to_size_t_range (capacity da * 2)) as Hrange.
    split; [done |]. split.
    { destruct (Z.eqb_spec (to_size_t (capacity da * 2)) 0);
        unfold DAWN_DA_DEFAULT_CAPACITY, SIZE_MAX, SIZE_WIDTH in *; lia. }
    split; [| done]. cbn [slots cell]. split; [done |].
    intros i Hi. destruct (items da) as [b |]; [| done].
    destruct (Z.ltb_spec i (slots b)); [done | lia].
  - intros [= <-]. split; [done |]. split; [lia |]. split; [| done].
    destruct (items da) as [b |]; [| done]. done.
Qed.

(** A grown capacity above the length has not wrapped around. *)
Lemma grown_capacity_exact c :
  0 <= c <= SIZE_MAX ->
  c < (if to_size_t (c * 2) =? 0 then DAWN_DA_DEFAULT_CAPACITY else to_size_t (c * 2)) ->
  (if to_size_t (c * 2) =? 0 then DAWN_DA_DEFAULT_CAPACITY else to_size_t (c * 2))
  = (if c =? 0 then DAWN_DA_DEFAULT_CAPACITY else c * 2).
Proof.
  intros Hc. destruct (Z_le_gt_dec (c * 2) SIZE_MAX) as [Hfit | Hwrap].
  - rewrite to_size_t_small by lia.
    destruct (Z.eqb_spec (c * 2) 0), (Z.eqb_spec c 0); lia.
  - rewrite to_size_t_double by lia.
    unfold DAWN_DA_DEFAULT_CAPACITY, SIZE_MAX, SIZE_WIDTH in *.
    destruct (Z.eqb_spec (c * 2 - 2 ^ 64) 0); lia.
Qed.

Lemma grown_capacity_fits c :
  0 <= c <= PTRDIFF_MAX ->
  c < (if to_size_t (c * 2) =? 0 then DAWN_DA_DEFAULT_CAPACITY else to_size_t (c * 2)).
Proof.
  intros Hc. unfold PTRDIFF_MAX in Hc.
  rewrite to_size_t_small by (unfold SIZE_MAX, SIZE_WIDTH; lia).
  unfold DAWN_DA_DEFAULT_CAPACITY. destruct (Z.eqb_spec (c * 2) 0); lia.
Qed.

(** [DAWN_DA_APPEND], when it returns. *)
Lemma append_returns heap da elem da' :
  da_valid da -> DAWN_DA_APPEND heap da elem = Returns da' ->
  da_valid da' /\
  length da' = length da + 1 /\
  da_elems da' = da_elems da ++ [elem] /\
  capacity da' =
    (if length da =? capacity da
     then if capacity da =? 0 then DAWN_DA_DEFAULT_CAPACITY else capacity da * 2
     else capacity da).
Proof.
  intros Hvalid. rewrite append_unfold.
  destruct (grow_when_full heap da) as [da1 | | |] eqn:Hgrow; try done.
  destruct (grow_when_full_returns _ _ _ Hvalid Hgrow) as (Hlen1 & Hcap1 & Hitems1 & Hnew).
  destruct Hvalid as (Hlen & Hcap & Hitems).
  cbn [bind]. unfold store.
  destruct (items da1) as [b1 |] eqn:Hb1; [| done].
  destruct Hitems1 as [Hslots1 Hkept]. unfold in_block.
  destruct (Z.leb_spec 0 (length da1)); [| done].
  destruct (Z.ltb_spec (length da1) (slots b1)) as [Hin |]; [| done].
  cbn [andb bind]. intros [= <-]. cbn [length capacity items].
  rewrite Hlen1 in *.
  assert (Hlength : to_size_t (length da + 1) = length da + 1)
    by (apply to_size_t_small; lia).
  rewrite Hlength. unfold da_valid, da_elems. cbn [length capacity items slots].
  split; [lia |]. split; [done |]. split.
  - rewrite block_elems_snoc by lia. cbn [cell]. rewrite Z.eqb_refl. f_equal.
    destruct (items da) as [b |] eqn:Hb.
    + apply block_elems_ext. intros i Hi. cbn [cell].
      destruct (Z.eqb_spec i (length da)); [lia |]. by apply Hkept.
    + apply block_elems_nil. lia.
  - rewrite Hnew. destruct (Z.eqb_spec (length da) (capacity da)) as [Hfull |]; [| done].
    apply grown_capacity_exact; [lia |]. rewrite <- Hnew. lia.
Qed.

(** [DAWN_DA_PREPEND], when it returns. *)
Lemma prepend_returns heap da elem da' :
  da_valid da -> DAWN_DA_PREPEND heap da elem = Returns da' ->
  da_valid da' /\
  length da' = length da + 1 /\
  da_elems da' = elem :: da_elems da /\
  capacity da' =
    (if length da =? capacity da
     then if capacity da =? 0 then DAWN_DA_DEFAULT_CAPACITY else capacity da * 2
     else capacity da).
Proof.
  intros Hvalid. rewrite prepend_unfold.
  destruct (grow_when_full heap da) as [da1 | | |] eqn:Hgrow; try done.
  destruct (grow_when_full_returns _ _ _ Hvalid Hgrow) as (Hlen1 & Hcap1 & Hitems1 & Hnew).
  destruct Hvalid as (Hlen & Hcap & Hitems).
  cbn [bind]. rewrite Hlen1 in *.
  destruct (items da1) as [b1 |] eqn:Hb1.
  2:{ destruct (Z.to_nat (length da)); done. }
  destruct Hitems1 as [Hslots1 Hkept].
  destruct (Z_lt_le_dec (length da) (slots b1)) as [Hin | Hout].
  - destruct (shift_right_spec (Z.to_nat (length da)) b1) as (b2 & Hshift & Hslots2 & Hcell2);
      [lia |].
    rewrite Hshift. cbn [bind store]. unfold in_block.
    destruct (Z.ltb_spec 0 (slots b2)); [| lia].
    cbn [Z.leb andb bind]. intros [= <-]. cbn [length capacity items].
    assert (Hlength : to_size_t (length da + 1) = length da + 1)
      by (apply to_size_t_small; lia).
    rewrite Hlength. unfold da_valid, da_elems. cbn [length capacity items slots].
    split; [lia |]. split; [done |]. split.
    + rewrite block_elems_cons by lia. cbn [cell]. f_equal.
      destruct (items da) as [b |] eqn:Hb.
      * apply list_fmap_ext. intros k i Hi. apply lookup_seqZ in Hi.
        destruct (Z.eqb_spec (1 + i) 0); [lia |].
        rewrite Hcell2.
        destruct (Z.leb_spec 1 (1 + i)), (Z.leb_spec (1 + i) (Z.of_nat (Z.to_nat (length da))));
          cbn [andb]; try lia.
        replace (1 + i - 1) with i by lia. apply Hkept. lia.
      * rewrite seqZ_nil by lia. done.
    + rewrite Hnew. destruct (Z.eqb_spec (length da) (capacity da)) as [Hfull |]; [| done].
      apply grown_capacity_exact; [lia |]. rewrite <- Hnew. lia.
  - destruct (Z.eq_dec (length da) 0) as [Hzero | Hpos].
    + rewrite Hzero in *. simpl. unfold in_block.
      destruct (Z.ltb_spec 0 (slots b1)); [lia |]. simpl. done.
    + rewrite shift_right_outside; [done | lia | lia].
Qed.
End MacroFacts.

Section AppendManyFacts.
Context {T : Type}.
Implicit Types (da : DynArray T) (heap : allocator T).

Lemma memcpy_returns (dst : pointer T) off (src : block T) n p :
  memcpy dst off src n = Returns p ->
  exists b, dst = Some b /\
            0 <= n <= slots src /\ 0 <= off /\ off + n <= slots b /\
            p = Some {| slots := slots b;
                        cell := fun j => if (off <=? j) && (j <? off + n)
                                         then cell src (j - off) else cell b j |}.
Proof.
  unfold memcpy. destruct dst as [b |]; [| done].
  destruct (Z.leb_spec 0 n), (Z.leb_spec n (slots src)), (Z.leb_spec 0 off),
    (Z.leb_spec (off + n) (slots b)); cbn [andb]; try done.
  intros [= <-]. exists b. repeat split; done.
Qed.

Lemma realloc_returns heap (p : pointer T) n b1 :
  realloc heap p n = Some b1 ->
  slots b1 = n /\ forall b i, p = Some b -> i < slots b -> cell b1 i = cell b i.
Proof.
  unfold realloc. destruct (heap n) as [fresh |]; [| done]. intros [= <-].
  split; [done |]. intros b i -> Hi. cbn [cell].
  destruct (Z.ltb_spec i (slots b)); [done | lia].
Qed.

Lemma block_elems_copied (b : block T) (src : block T) off n :
  0 <= off -> 0 <= n ->
  block_elems {| slots := slots b;
                 cell := fun j => if (off <=? j) && (j <? off + n)
                                  then cell src (j - off) else cell b j |} (off + n)
  = block_elems b off ++ block_elems src n.
Proof.
  intros Hoff Hn. rewrite block_elems_app by done. f_equal.
  - apply block_elems_ext. intros i Hi. cbn [cell].
    destruct (Z.leb_spec off i); [lia | done].
  - apply list_fmap_ext. intros k i Hi. apply lookup_seqZ in Hi. cbn [cell].
    destruct (Z.leb_spec off (off + i)), (Z.ltb_spec (off + i) (off + n));
      cbn [andb]; try lia.
    f_equal. lia.
Qed.

(** [DAWN_DA_APPEND_MANY], when it returns. *)
Lemma append_many_returns heap da elems count da' :
  da_valid da -> DAWN_DA_APPEND_MANY heap da elems count = Returns da' ->
  da_valid da' /\
  0 <= count <= slots elems /\
  length da' = length da + count /\
  length da' < capacity da' /\
  da_elems da' = da_elems da ++ block_elems elems count /\
  (if length da + count >=? capacity da
   then double_until doubling_fuel (length da + count)
          (if capacity da =? 0 then DAWN_DA_DEFAULT_CAPACITY else capacity da)
        = Some (capacity da')
   else capacity da' = capacity da).
Proof.
  intros (Hlen & Hcap & Hitems). unfold DAWN_DA_APPEND_MANY.
  pose proof (to_size_t_range (length da + count)) as Hneed.
  destruct (Z.geb_spec (to_size_t (length da + count)) (capacity da)) as [Hgrow | Hroom].
  - destruct (double_until _ _ _) as [capacity2 |] eqn:Hloop; [| done].
    pose proof Hloop as Hstops.
    apply double_until_stops in Hstops as [Habove Hrange2].
    2:{ unfold DAWN_DA_DEFAULT_CAPACITY, SIZE_MAX, SIZE_WIDTH in *.
        destruct (Z.eqb_spec (capacity da) 0); lia. }
    destruct (realloc heap (items da) capacity2) as [b1 |] eqn:Hrealloc; [| done].
    apply realloc_returns in Hrealloc as [Hslots1 Hkept].
    cbn [bind length capacity items].
    destruct (memcpy _ _ _ _) as [p | | |] eqn:Hcopy; try done.
    apply memcpy_returns in Hcopy as (b1' & [= <-] & Hcount & _ & Hfit & ->).
    cbn [bind]. intros [= <-].
    assert (Hsum : to_size_t (length da + count) = length da + count)
      by (apply to_size_t_small; lia).
    rewrite Hsum in *. unfold da_valid, da_elems. cbn [length capacity items slots].
    split; [lia |]. split; [done |]. split; [done |]. split; [done |]. split.
    + rewrite block_elems_copied by lia. f_equal.
      destruct (items da) as [b |].
      * apply block_elems_ext. intros i Hi. apply Hkept; [done | lia].
      * apply block_elems_nil. lia.
    + destruct (Z.geb_spec (length da + count) (capacity da)); [done | lia].
  - cbn [bind].
    destruct (memcpy _ _ _ _) as [p | | |] eqn:Hcopy; try done.
    apply memcpy_returns in Hcopy as (b & Hb & Hcount & _ & Hfit & ->).
    rewrite Hb in Hitems. cbn [bind]. intros [= <-].
    assert (Hsum : to_size_t (length da + count) = length da + count)
      by (apply to_size_t_small; lia).
    rewrite Hsum in *. unfold da_valid, da_elems. cbn [length capacity items slots].
    rewrite Hb.
    split; [lia |]. split; [done |]. split; [done |]. split; [done |]. split.
    + by rewrite block_elems_copied by lia.
    + destruct (Z.geb_spec (length da + count) (capacity da)); [lia | done].
Qed.

(** [DAWN_DA_APPEND_MANY] returns, unless the assertion on [realloc] fails,
    when the elements to copy are there and the new length is the size of
    an object. *)
Lemma append_many_total heap da elems count :
  da_valid da -> 0 <= count <= slots elems -> length da + count <= PTRDIFF_MAX ->
  DAWN_DA_APPEND_MANY heap da elems count <> AssertFailed ->
  exists da', DAWN_DA_APPEND_MANY heap da elems count = Returns da'.
Proof.
  intros (Hlen & Hcap & Hitems) Hcount Hsmall. unfold DAWN_DA_APPEND_MANY.
  assert (Hsum : to_size_t (length da + count) = length da + count).
  { apply to_size_t_small. unfold PTRDIFF_MAX, SIZE_MAX, SIZE_WIDTH in *. lia. }
  rewrite Hsum.
  destruct (Z.geb_spec (length da + count) (capacity da)) as [Hgrow | Hroom].
  - destruct (double_until_spec doubling_fuel (length da + count)
                (if capacity da =? 0 then DAWN_DA_DEFAULT_CAPACITY else capacity da))
      as (j & Hloop & Habove & _).
    { unfold DAWN_DA_DEFAULT_CAPACITY. destruct (Z.eqb_spec (capacity da) 0); lia. }
    { lia. }
    { unfold DAWN_DA_DEFAULT_CAPACITY, PTRDIFF_MAX, doubling_fuel in *.
      destruct (Z.eqb_spec (capacity da) 0); simpl; lia. }
    rewrite Hloop. unfold realloc. destruct (heap _) as [fresh |]; [| done].
    intros _. cbn [bind length capacity items]. unfold memcpy. cbn [slots].
    destruct (Z.leb_spec 0 count), (Z.leb_spec count (slots elems)),
      (Z.leb_spec 0 (length da)),
      (Z.leb_spec (length da + count)
         ((if capacity da =? 0 then DAWN_DA_DEFAULT_CAPACITY else capacity da)
          * 2 ^ Z.of_nat j)); try lia.
    cbn [andb bind]. eauto.
  - intros _. cbn [bind]. destruct (items da) as [b |]; [| lia].
    unfold memcpy.
    destruct (Z.leb_spec 0 count), (Z.leb_spec count (slots elems)),
      (Z.leb_spec 0 (length da)), (Z.leb_spec (length da + count) (slots b)); try lia.
    cbn [andb bind]. eauto.
Qed.

Lemma grow_when_full_total heap da :
  grow_when_full heap da <> AssertFailed ->
  exists da1, grow_when_full heap da = Returns da1.
Proof.
  unfold grow_when_full. destruct (length da =? capacity da); [| eauto].
  destruct (realloc _ _ _); [eauto | done].
Qed.

(** [DAWN_DA_APPEND] and [DAWN_DA_PREPEND] return, unless the assertion on
    [realloc] fails, when the new length is the size of an object. *)
Lemma append_total heap da elem :
  da_valid da -> length da + 1 <= PTRDIFF_MAX ->
  grow_when_full heap da <> AssertFailed ->
  exists da', DAWN_DA_APPEND heap da elem = Returns da'.
Proof.
  intros Hvalid Hsmall Hassert. rewrite append_unfold.
  destruct (grow_when_full_total _ _ Hassert) as [da1 Hgrow]. rewrite Hgrow.
  destruct (grow_when_full_returns _ _ _ Hvalid Hgrow) as (Hlen1 & Hcap1 & Hitems1 & Hnew).
  destruct Hvalid as (Hlen & Hcap & Hitems). cbn [bind].
  assert (Hin : length da < capacity da1).
  { rewrite Hnew. destruct (Z.eqb_spec (length da) (capacity da)) as [Hfull |]; [| lia].
    rewrite Hfull. apply grown_capacity_fits. lia. }
  destruct (items da1) as [b1 |]; [| lia]. destruct Hitems1 as [Hslots1 _].
  unfold store, in_block. rewrite Hlen1.
  destruct (Z.leb_spec 0 (length da)), (Z.ltb_spec (length da) (slots b1)); try lia.
  cbn [andb bind]. eauto.
Qed.

Lemma prepend_total heap da elem :
  da_valid da -> length da + 1 <= PTRDIFF_MAX ->
  grow_when_full heap da <> AssertFailed ->
  exists da', DAWN_DA_PREPEND heap da elem = Returns da'.
Proof.
  intros Hvalid Hsmall Hassert. rewrite prepend_unfold.
  destruct (grow_when_full_total _ _ Hassert) as [da1 Hgrow]. rewrite Hgrow.
  destruct (grow_when_full_returns _ _ _ Hvalid Hgrow) as (Hlen1 & Hcap1 & Hitems1 & Hnew).
  destruct Hvalid as (Hlen & Hcap & Hitems). cbn [bind].
  assert (Hin : length da < capacity da1).
  { rewrite Hnew. destruct (Z.eqb_spec (length da) (capacity da)) as [Hfull |]; [| lia].
    rewrite Hfull. apply grown_capacity_fits. lia. }
  destruct (items da1) as [b1 |]; [| lia]. destruct Hitems1 as [Hslots1 _].
  rewrite Hlen1.
  destruct (shift_right_spec (Z.to_nat (length da)) b1) as (b2 & Hshift & Hslots2 & _);
    [lia |].
  rewrite Hshift. cbn [bind]. unfold store, in_block.
  destruct (Z.ltb_spec 0 (slots b2)); [| lia]. simpl. eauto.
Qed.

Lemma assert_failed_bind {A B} (m : outcome A) (k : A -> outcome B) :
  bind m k <> AssertFailed -> m <> AssertFailed.
Proof. intros H ->. by apply H. Qed.

End AppendManyFacts.

(** ** Sequences of operations *)

Section RunFacts.
Context {T : Type}.
Implicit Types (da : DynArray T) (heap : allocator T).

Lemma da_inv_empty : da_inv (@da_empty T).
Proof.
  unfold da_inv, da_valid, da_empty, SIZE_MAX, SIZE_WIDTH. cbn. split; [lia | by left].
Qed.

Lemma grown_pow2 c :
  (c = 0 \/ exists k : nat, c = DAWN_DA_DEFAULT_CAPACITY * 2 ^ Z.of_nat k) ->
  exists k : nat,
    (if c =? 0 then DAWN_DA_DEFAULT_CAPACITY else c * 2)
    = DAWN_DA_DEFAULT_CAPACITY * 2 ^ Z.of_nat k.
Proof.
  intros [-> | [k ->]].
  - exists 0%nat. simpl. lia.
  - exists (S k). assert (0 < 2 ^ Z.of_nat k) by (apply Z.pow_pos_nonneg; lia).
    unfold DAWN_DA_DEFAULT_CAPACITY.
    destruct (Z.eqb_spec (16 * 2 ^ Z.of_nat k) 0); [lia |].
    rewrite Nat2Z.inj_succ, Z.pow_succ_r by lia. lia.
Qed.

Lemma da_apply_inv heap da op da' :
  da_inv da -> da_apply heap da op = Returns da' ->
  da_inv da' /\ exists k : nat, capacity da' = DAWN_DA_DEFAULT_CAPACITY * 2 ^ Z.of_nat k.
Proof.
  intros [Hvalid Hpow] Hrun.
  assert (Hone : forall c, 0 < c ->
             (c = 0 \/ exists k : nat, c = DAWN_DA_DEFAULT_CAPACITY * 2 ^ Z.of_nat k) ->
             exists k : nat, c = DAWN_DA_DEFAULT_CAPACITY * 2 ^ Z.of_nat k).
  { intros c Hc [-> | H]; [lia | done]. }
  assert (Hgrown : forall len',
             0 < len' <= capacity da' ->
             capacity da' =
               (if length da =? capacity da
                then if capacity da =? 0 then DAWN_DA_DEFAULT_CAPACITY else capacity da * 2
                else capacity da) ->
             exists k : nat, capacity da' = DAWN_DA_DEFAULT_CAPACITY * 2 ^ Z.of_nat k).
  { intros len' Hlen' Heq. rewrite Heq in Hlen' |- *. revert Hlen'.
    destruct (length da =? capacity da); intros Hlen'.
    - by apply grown_pow2.
    - apply Hone; [lia | done]. }
  cut (da_valid da' /\
       exists k : nat, capacity da' = DAWN_DA_DEFAULT_CAPACITY * 2 ^ Z.of_nat k).
  { intros [H1 H2]. split; [split; [done | by right] | done]. }
  destruct op as [elem | elems count | elem]; cbn [da_apply] in Hrun.
  - apply append_returns in Hrun as (Hvalid' & Hlen' & _ & Hcap'); [| done].
    split; [done |]. apply (Hgrown (length da')); [| done].
    destruct Hvalid as ((? & ?) & _), Hvalid' as ((? & ?) & _). lia.
  - apply append_many_returns in Hrun as (Hvalid' & Hcount & Hlen' & Hbelow & _ & Hcap');
      [| done].
    split; [done |]. destruct Hvalid as ((? & ?) & ? & _).
    destruct (Z.geb_spec (length da + count) (capacity da)).
    + destruct Hpow as [Hzero | [k Hk]].
      * rewrite Hzero in Hcap'. change (0 =? 0) with true in Hcap'. cbv iota in Hcap'.
        apply (double_until_pow2 _ _ 0%nat) in Hcap'; [done | lia |].
        unfold SIZE_MAX, SIZE_WIDTH. simpl. lia.
      * assert (0 < 2 ^ Z.of_nat k) by (apply Z.pow_pos_nonneg; lia).
        destruct (Z.eqb_spec (capacity da) 0);
          [unfold DAWN_DA_DEFAULT_CAPACITY in *; lia |].
        rewrite Hk in Hcap'. unfold DAWN_DA_DEFAULT_CAPACITY in *.
        apply double_until_pow2 in Hcap'; [done | lia | lia].
    + rewrite Hcap'. apply Hone; [lia | done].
  - apply prepend_returns in Hrun as (Hvalid' & Hlen' & _ & Hcap'); [| done].
    split; [done |]. apply (Hgrown (length da')); [| done].
    destruct Hvalid as ((? & ?) & _), Hvalid' as ((? & ?) & _). lia.
Qed.

(** An operation returns, unless the assertion on [realloc] fails, when the
    new length is the size of an object. *)
Lemma da_apply_total heap da op :
  da_valid da ->
  match op with
  | AppendMany elems count => 0 <= count <= slots elems /\ length da + count <= PTRDIFF_MAX
  | _ => length da + 1 <= PTRDIFF_MAX
  end ->
  da_apply heap da op <> AssertFailed ->
  exists da', da_apply heap da op = Returns da'.
Proof.
  intros Hvalid Hsmall Hassert. destruct op as [elem | elems count | elem]; cbn [da_apply] in *.
  - apply append_total; [done | done |].
    rewrite append_unfold in Hassert. by apply assert_failed_bind in Hassert.
  - destruct Hsmall. by apply append_many_total.
  - apply prepend_total; [done | done |].
    rewrite prepend_unfold in Hassert. by apply assert_failed_bind in Hassert.
Qed.

Lemma da_run_inv steps da states :
  da_inv da -> da_run steps da = Returns states ->
  List.length states = List.length steps /\
  Forall (fun da' => da_inv da' /\
                     exists k : nat, capacity da' = DAWN_DA_DEFAULT_CAPACITY * 2 ^ Z.of_nat k)
         states.
Proof.
  revert da states. induction steps as [| [heap op] steps IH]; intros da states Hinv; simpl.
  - intros [= <-]. split; [done | constructor].
  - destruct (da_apply heap da op) as [da' | | |] eqn:Hstep; try done. cbn [bind].
    destruct (da_run steps da') as [rest | | |] eqn:Hrest; try done. cbn [bind].
    intros [= <-].
    destruct (da_apply_inv _ _ _ _ Hinv Hstep) as [Hinv' Hpow'].
    destruct (IH _ _ Hinv' Hrest) as [Hlen Hall].
    split; [simpl; by rewrite Hlen |]. by constructor.
Qed.
End RunFacts.

(** ** Theorems on the dynamic array *)





(** C6.  After every operation of a sequence of [DAWN_DA_APPEND],
    [DAWN_DA_APPEND_MANY] and [DAWN_DA_PREPEND] that starts from the empty
    array (length 0, capacity 0), [capacity >= length] and the capacity is 16
    times a power of two.  (The first operation on the empty array always
    grows it, so growth has occurred in every array of [states].) *)
Theorem da_run_invariant {T : Type} (steps : list (allocator T * da_op T))
    (states : list (DynArray T)) :
  da_run steps da_empty = Returns states ->
  List.length states = List.length steps /\
  Forall (fun da => capacity da >= length da /\
                    exists k : nat, capacity da = DAWN_DA_DEFAULT_CAPACITY * 2 ^ Z.of_nat k)
         states.
Proof.
  intros Hrun. destruct (da_run_inv _ _ _ da_inv_empty Hrun) as [Hlen Hall].
  split; [done |]. eapply Forall_impl; [exact Hall |].
  intros da [[((_ & Hle) & _) _] Hpow]. split; [lia | done].
Qed.

Lemma da_run_invariant_witness :
  let buf := block_of_list 0 (seqZ 1 40) in
  let steps := [(heap_fill 0, Append 7); (heap_fill 0, Prepend 8);
                (heap_fill 0, AppendMany buf 40); (heap_fill 0, Append 9)] in
  exists states,
    da_run steps (@da_empty Z) = Returns states /\
    (capacity <$> states) = [16; 16; 64; 64] /\
    (length <$> states) = [1; 2; 42; 43] /\
    Forall (fun da => capacity da >= length da /\
                      exists k : nat, capacity da = DAWN_DA_DEFAULT_CAPACITY * 2 ^ Z.of_nat k)
           states.
Proof.
  intros buf steps.
  destruct (da_run steps (@da_empty Z)) as [states | | |] eqn:Hrun;
    try (vm_compute in Hrun; discriminate).
  exists states. split; [done |].
  split; [vm_compute in Hrun; injection Hrun as <-; reflexivity |].
  split; [vm_compute in Hrun; injection Hrun as <-; reflexivity |].
  apply (da_run_invariant steps states Hrun).
Defined.

(** ** Theorems on the helpers *)

(** C5 (amended).  For every [int] [x] and every [int] [n > 0] for which
    [(x % n) + n] does not exceed [INT_MAX] (so for every [n <= 2^30]),
    [dawn_mod(x, n)] is the mathematical [x mod n], which lies in [[0, n)]
    whatever the sign of [x]; in particular [dawn_mod(-1, 5) = 4],
    [dawn_mod(7, 5) = 2] and [dawn_mod(0, 5) = 0]. *)
Theorem dawn_mod_spec (x n : Z) :
  INT_MIN <= x <= INT_MAX ->
  0 < n <= INT_MAX ->
  Z.rem x n + n <= INT_MAX ->
  (dawn_mod x n = x mod n /\ 0 <= dawn_mod x n < n) /\
  dawn_mod (-1) 5 = 4 /\ dawn_mod 7 5 = 2 /\ dawn_mod 0 5 = 0.
Proof.
  intros Hx Hn Hfits. split; [| by vm_compute].
  pose proof (rem_bounds x n ltac:(lia)) as Hrem.
  pose proof (Z.mod_pos_bound x n ltac:(lia)) as Hmod.
  unfold dawn_mod, INT_MIN, INT_MAX in *.
  rewrite (to_int_small (Z.rem x n)) by (unfold INT_MIN, INT_MAX; lia).
  rewrite (to_int_small (Z.rem x n + n)) by (unfold INT_MIN, INT_MAX; lia).
  rewrite rem_plus_mod by lia.
  rewrite to_int_small by (unfold INT_MIN, INT_MAX; lia).
  split; [done | lia].
Qed.

(** Every modulus up to [2^30] keeps [(x % n) + n] within [int]. *)
Lemma dawn_mod_small_modulus (x n : Z) : 0 < n <= 2 ^ 30 -> Z.rem x n + n <= INT_MAX.
Proof. intros Hn. pose proof (rem_bounds x n ltac:(lia)). unfold INT_MAX. lia. Qed.

Lemma dawn_mod_spec_witness :
  (INT_MIN <= -7 <= INT_MAX /\ 0 < 5 <= INT_MAX /\ Z.rem (-7) 5 + 5 <= INT_MAX) /\
  dawn_mod (-7) 5 = 3.
Proof.
  assert (H1 : INT_MIN <= -7 <= INT_MAX) by (unfold INT_MIN, INT_MAX; lia).
  assert (H2 : 0 < 5 <= INT_MAX) by (unfold INT_MAX; lia).
  assert (H3 : Z.rem (-7) 5 + 5 <= INT_MAX) by (vm_compute; discriminate).
  split; [done |].
  destruct (dawn_mod_spec (-7) 5 H1 H2 H3) as [[-> _] _]. reflexivity.
Defined.

(** C5 as stated fails: with the modulus [2^30 + 1] the sum [(x % n) + n]
    overflows [int] and the result is negative. *)
Lemma dawn_mod_large_modulus :
  let x := 1073741824 in
  let n := 1073741825 in
  (INT_MIN <= x <= INT_MAX /\ 0 < n <= INT_MAX) /\
  dawn_mod x n = -1073741822 /\
  ~ (dawn_mod x n = x mod n /\ 0 <= dawn_mod x n < n).
Proof.
  intros x n. split; [unfold INT_MIN, INT_MAX, x, n; lia |].
  split; [reflexivity |].
  intros [_ Hrange]. vm_compute in Hrange. destruct Hrange as [Hrange _]. by apply Hrange.
Qed.

(** C8.  With [argc > 0] and [argv] pointing to [argc] arguments,
    [dawn_shift_args] returns the first of them, moves the pointer one
    argument up and takes one off the count; [argc] successive calls return
    the arguments in their order and leave the count 0; with [argc = 0] the
    assertion fails. *)
Theorem dawn_shift_args_spec (argc : Z) (argv : arg_pointer) :
  0 < argc <= INT_MAX ->
  List.length (arg_array argv) = (arg_index argv + Z.to_nat argc)%nat ->
  (exists arg,
     arg_array argv !! arg_index argv = Some arg /\
     dawn_shift_args argc argv
     = Returns (arg, (argc - 1,
                      {| arg_array := arg_array argv; arg_index := S (arg_index argv) |}))) /\
  shift_args_times (Z.to_nat argc) argc argv
  = Returns (drop (arg_index argv) (arg_array argv),
             (0, {| arg_array := arg_array argv;
                    arg_index := (arg_index argv + Z.to_nat argc)%nat |})) /\
  (forall argv', dawn_shift_args 0 argv' = AssertFailed).
Proof.
  intros Hargc Hlen. split; [| split; [| done]].
  - destruct (lookup_lt_is_Some_2 (arg_array argv) (arg_index argv)) as [arg Harg]; [lia |].
    exists arg. split; [done |]. unfold dawn_shift_args. rewrite Harg.
    destruct (Z.gtb_spec argc 0); [| lia].
    rewrite to_int_small by (unfold INT_MIN, INT_MAX in *; lia). done.
  - destruct argv as [array index]. cbn [arg_array arg_index] in *.
    remember (Z.to_nat argc) as n eqn:Hn.
    assert (Hargc' : argc = Z.of_nat n) by lia. clear Hn. subst argc.
    revert index Hlen Hargc. induction n as [| n IH]; intros index Hlen Hargc.
    + lia.
    + cbn [shift_args_times]. unfold dawn_shift_args. cbn [arg_array arg_index].
      destruct (Z.gtb_spec (Z.of_nat (S n)) 0); [| lia].
      destruct (lookup_lt_is_Some_2 array index) as [arg Harg]; [lia |].
      rewrite Harg. cbn [bind fst snd].
      rewrite to_int_small by (unfold INT_MIN, INT_MAX in *; lia).
      replace (Z.of_nat (S n) - 1) with (Z.of_nat n) by lia.
      rewrite (drop_S _ _ _ Harg).
      destruct n as [| n'].
      * cbn [shift_args_times bind fst snd].
        rewrite drop_ge by lia. by rewrite Nat.add_1_r.
      * rewrite IH by lia. cbn [bind fst snd].
        by replace (S index + S n')%nat with (index + S (S n'))%nat by lia.
Qed.

Lemma dawn_shift_args_spec_witness :
  let argv := {| arg_array := ["a"; "b"; "c"]%string; arg_index := 0 |} in
  (0 < 3 <= INT_MAX /\ List.length (arg_array argv) = (arg_index argv + Z.to_nat 3)%nat) /\
  shift_args_times 3 3 argv
  = Returns (["a"; "b"; "c"]%string,
             (0, {| arg_array := ["a"; "b"; "c"]%string; arg_index := 3 |})) /\
  shift_args_times 4 3 argv = AssertFailed.
Proof.
  intros argv.
  assert (H1 : 0 < 3 <= INT_MAX) by (unfold INT_MAX; lia).
  assert (H2 : List.length (arg_array argv) = (arg_index argv + Z.to_nat 3)%nat)
    by reflexivity.
  split; [done |].
  destruct (dawn_shift_args_spec 3 argv H1 H2) as (_ & Hall & _).
  split; [exact Hall | reflexivity].
Defined.

(** ** Whole files *)

Lemma block_elems_prefix (l : list byte) (g : Z -> byte) (s m : Z) :
  0 <= m <= Z.of_nat (List.length l) ->
  block_elems {| slots := s;
                 cell := fun i => if (0 <=? i) && (i <? m)
                                  then nth (Z.to_nat i) l x00 else g i |} m
  = take (Z.to_nat m) l.
Proof.
  intros Hm. apply list_eq. intros i. unfold block_elems. rewrite list_lookup_fmap.
  destruct (decide (i < Z.to_nat m)%nat) as [Hi | Hi].
  - rewrite lookup_seqZ_lt, lookup_take_lt by lia. cbn. rewrite Z.add_0_l, Nat2Z.id.
    destruct (Z.leb_spec 0 (Z.of_nat i)), (Z.ltb_spec (Z.of_nat i) m); try lia.
    cbn [andb]. destruct (lookup_lt_is_Some_2 l i ltac:(lia)) as [x Hx].
    rewrite Hx. f_equal. by apply nth_lookup_Some.
  - rewrite lookup_seqZ_ge, lookup_take_ge by lia. done.
Qed.

Lemma fread_size_le f count : fread_size f count <= Z.min count (Z.of_nat (List.length (chars f))).
Proof.
  unfold fread_size. destruct (read_error f) as [k |]; [| lia].
  destruct (Z.leb_spec 0 k), (Z.ltb_spec k (Z.min count (Z.of_nat (List.length (chars f)))));
    cbn [andb]; lia.
Qed.

(** Without a read error [fread] delivers what was asked, up to the end of
    the stream. *)
Lemma fread_size_no_error f count :
  ferror f count = false ->
  fread_size f count = Z.min count (Z.of_nat (List.length (chars f))).
Proof.
  unfold ferror, fread_size. destruct (read_error f) as [k |]; [| done].
  by intros ->.
Qed.

(** The path through [dawn_read_entire_file] that returns [true]. *)
Lemma read_returns_true env path sb :
  result (dawn_read_entire_file env (Some path) (Some sb)) = Returns true ->
  exists f fresh sb',
    let f_size := tell_end f in
    let buf := {| slots := to_size_t f_size; cell := fresh |} in
    fopen_r env path = Some f /\
    seek_end f = 0 /\ 0 <= f_size /\ seek_set f = 0 /\
    buf_heap env (to_size_t f_size) = Some fresh /\
    (fread_size f (to_size_t f_size) < to_size_t f_size ->
     ferror f (to_size_t f_size) = false) /\
    DAWN_DA_APPEND_MANY (sb_heap env) sb (snd (fread f buf (to_size_t f_size))) f_size
    = Returns sb' /\
    content_after (dawn_read_entire_file env (Some path) (Some sb)) = Some sb'.
Proof.
  unfold dawn_read_entire_file, malloc, DAWN_SB_APPEND_BUF.
  destruct (fopen_r env path) as [f |]; [| done].
  destruct (Z.eqb_spec (seek_end f) 0) as [Hend |]; [| done]. cbn [negb].
  destruct (Z.ltb_spec (tell_end f) 0) as [| Hsize]; [done |].
  destruct (Z.eqb_spec (seek_set f) 0) as [Hset |]; [| done]. cbn [negb].
  destruct (buf_heap env (to_size_t (tell_end f))) as [fresh |] eqn:Hmalloc; [| done].
  unfold fread. cbn [snd].
  destruct (fread_size f (to_size_t (tell_end f)) <? to_size_t (tell_end f)) eqn:Hshort.
  - destruct (ferror f (to_size_t (tell_end f))) eqn:Herror; [done |]. cbn [andb].
    destruct (DAWN_DA_APPEND_MANY _ _ _ _) as [sb' | | |] eqn:Happend; try done.
    intros _. exists f, fresh, sb'. cbn zeta. repeat split; try done.
  - cbn [andb].
    destruct (DAWN_DA_APPEND_MANY _ _ _ _) as [sb' | | |] eqn:Happend; try done.
    intros _. exists f, fresh, sb'. cbn zeta. repeat split; try done.
    apply Z.ltb_ge in Hshort. lia.
Qed.

Lemma fread_size_nonneg f count : 0 <= count -> 0 <= fread_size f count.
Proof.
  intros Hcount. unfold fread_size. destruct (read_error f) as [k |]; [| lia].
  destruct (Z.leb_spec 0 k), (Z.ltb_spec k (Z.min count (Z.of_nat (List.length (chars f)))));
    cbn [andb]; lia.
Qed.

(** What a call that returns [true] has appended: [f_size] bytes of the
    buffer, which are the characters [fread] delivered and then, after a
    short read, what [malloc] left in the buffer. *)
Lemma read_true_appends env path sb :
  da_valid sb ->
  result (dawn_read_entire_file env (Some path) (Some sb)) = Returns true ->
  exists f fresh sb',
    let f_size := tell_end f in
    let read_size := fread_size f f_size in
    fopen_r env path = Some f /\
    buf_heap env f_size = Some fresh /\
    content_after (dawn_read_entire_file env (Some path) (Some sb)) = Some sb' /\
    0 <= read_size <= f_size /\
    (read_size < f_size -> ferror f f_size = false) /\
    length sb' = length sb + f_size /\
    da_elems sb' = da_elems sb ++ take (Z.to_nat read_size) (chars f)
                               ++ (fresh <$> seqZ read_size (f_size - read_size)).
Proof.
  intros Hvalid Hread.
  apply read_returns_true in Hread
    as (f & fresh & sb' & Hopen & _ & Hsize & _ & Hmalloc & Herror & Happend & Hafter).
  cbv zeta in *.
  apply append_many_returns in Happend as (_ & Hcount & Hlen' & _ & Helems & _); [| done].
  unfold fread in Hcount, Helems. cbn [snd slots] in Hcount, Helems.
  assert (Hsize_t : to_size_t (tell_end f) = tell_end f).
  { pose proof (to_size_t_range (tell_end f)). apply to_size_t_small. lia. }
  rewrite Hsize_t in *.
  pose proof (fread_size_le f (tell_end f)) as Hle.
  pose proof (fread_size_nonneg f (tell_end f) Hsize) as Hge.
  exists f, fresh, sb'. cbv zeta. repeat split; try done; try lia.
  rewrite Helems. f_equal.
  assert (Hsplit : forall b : block byte,
            block_elems b (tell_end f)
            = block_elems b (fread_size f (tell_end f))
              ++ ((fun j => cell b (fread_size f (tell_end f) + j))
                    <$> seqZ 0 (tell_end f - fread_size f (tell_end f)))).
  { intros b. rewrite <- block_elems_app by lia. f_equal. lia. }
  rewrite Hsplit. f_equal.
  - rewrite <- (block_elems_prefix (chars f) fresh (tell_end f)) by lia. done.
  - assert (Hseq : seqZ (fread_size f (tell_end f)) (tell_end f - fread_size f (tell_end f))
                   = Z.add (fread_size f (tell_end f))
                       <$> seqZ 0 (tell_end f - fread_size f (tell_end f))).
    { rewrite fmap_add_seqZ. f_equal. lia. }
    rewrite Hseq, <- list_fmap_compose.
    apply list_fmap_ext. intros k i Hi. apply lookup_seqZ in Hi. cbn.
    destruct (Z.leb_spec 0 (fread_size f (tell_end f) + i)),
      (Z.ltb_spec (fread_size f (tell_end f) + i) (fread_size f (tell_end f)));
      cbn [andb]; try lia; done.
Qed.


(** C2.  The round trip is lost when the flush of [fclose] fails, which the
    source does not look at.  The three bytes [abc] are written to a file on
    a device that has room for one byte: [fwrite] takes them into the buffer
    of the stream, [dawn_write_entire_file] returns [true] and prints
    nothing, and of the flush at [fclose] one byte reaches the file.
    [dawn_read_entire_file] on the same path and an empty string builder then
    returns [true] as well, and the string builder holds the byte [a], not
    the bytes that were written. *)
Theorem roundtrip_lost_at_close :
  let sb : DawnStringBuilder :=
    {| length := 3; capacity := 16;
       items := Some (block_of_list x00 (x61 :: x62 :: x63 :: repeat x00 13)) |} in
  let device : write_faults :=
    {| create_fault := false; short_write := None; lost_at_close := Some 1 |} in
  let w := dawn_write_entire_file (posix_write_env device)
             (Some "out.txt"%string) (Some sb) in
  let r := dawn_read_entire_file
             (posix_read_env (posix_after ∅ device "out.txt" w) no_read_faults
                (heap_fill xff) (heap_fill xff))
             (Some "out.txt"%string) (Some da_empty) in
  da_valid sb /\
  da_elems sb = [x61; x62; x63] /\
  result w = Returns true /\
  count_events is_stderr (trace w) = 0%nat /\
  result r = Returns true /\
  exists sb2,
    content_after r = Some sb2 /\
    da_elems sb2 = [x61] /\
    da_elems sb2 <> da_elems sb.
Proof.
  intros sb device w r.
  split; [unfold da_valid, SIZE_MAX, SIZE_WIDTH; cbn; lia |].
  split; [reflexivity |].
  split; [vm_compute; reflexivity |].
  split; [vm_compute; reflexivity |].
  split; [vm_compute; reflexivity |].
  eexists. split; [vm_compute; reflexivity |].
  split; [vm_compute; reflexivity |].
  vm_compute. discriminate.
Qed.

(** C1, at the input where the code departs from it.  The stream ends at
    position 3 and delivers 2 characters without a read error (the file
    ["a\r\n"] read through a stream that translates line ends, or a file cut
    short between [ftell] and [fread]): the function returns [true] and
    appends 3 bytes, the 2 that were read and then the byte that [malloc]
    left in the buffer.  The macro is given [f_size] where [read_size] was
    meant. *)
Theorem read_short_appends_f_size :
  let f := {| seek_end := 0; tell_end := 3; seek_set := 0;
              chars := [x61; x0a]; read_error := None |} in
  let env := {| fopen_r := fun _ => Some f;
                buf_heap := heap_fill xff; sb_heap := heap_fill x00 |} in
  let c := dawn_read_entire_file env (Some "a.txt"%string) (Some da_empty) in
  fread_size f 3 = 2 /\ ferror f 3 = false /\
  result c = Returns true /\
  (da_elems <$> content_after c) = Some [x61; x0a; xff] /\
  (length <$> content_after c) = Some 3 /\
  (da_elems <$> content_after c) <> Some (take (Z.to_nat (fread_size f 3)) (chars f)).
Proof.
  intros f env c. repeat split; by vm_compute.
Qed.

(** C4.  When [dawn_read_entire_file] returns [false] (the file does not
    open, a seek or the size query fails, the buffer is not allocated, or a
    short read comes with a stream error), the string builder behind
    [content] has the length, the capacity and the contents it had. *)
Theorem read_failure_leaves_content (env : read_env) (path : string)
    (sb : DawnStringBuilder) :
  result (dawn_read_entire_file env (Some path) (Some sb)) = Returns false ->
  content_after (dawn_read_entire_file env (Some path) (Some sb)) = Some sb.
Proof.
  unfold dawn_read_entire_file, malloc.
  destruct (fopen_r env path) as [f |]; [| done].
  destruct (negb (seek_end f =? 0)); [done |].
  destruct (tell_end f <? 0); [done |].
  destruct (negb (seek_set f =? 0)); [done |].
  destruct (buf_heap env (to_size_t (tell_end f))) as [fresh |]; [| done].
  unfold fread.
  destruct ((_ <? _) && ferror _ _); [done |].
  destruct (DAWN_SB_APPEND_BUF _ _ _ _); done.
Qed.

Lemma read_failure_leaves_content_witness :
  let env := posix_read_env ∅ no_read_faults (heap_fill xff) (heap_fill xff) in
  let sb : DawnStringBuilder :=
    {| length := 2; capacity := 4;
       items := Some (block_of_list x00 [x68; x69; x00; x00]) |} in
  result (dawn_read_entire_file env (Some "missing"%string) (Some sb)) = Returns false /\
  content_after (dawn_read_entire_file env (Some "missing"%string) (Some sb)) = Some sb.
Proof.
  intros env sb.
  assert (H : result (dawn_read_entire_file env (Some "missing"%string) (Some sb))
              = Returns false) by reflexivity.
  split; [exact H |]. exact (read_failure_leaves_content env "missing" sb H).
Defined.

(** The failures of [dawn_read_entire_file] do return [false]: a file that
    is not there, a failed seek, a failed size query, a failed allocation, a
    short read with a stream error. *)
Lemma read_failures (data : list byte) (faults : read_faults)
    (heap1 heap2 : allocator byte) (path : string) (sb : DawnStringBuilder) :
  let run fs heap faults :=
    result (dawn_read_entire_file (posix_read_env fs faults heap heap2)
              (Some path) (Some sb)) in
  let size := Z.of_nat (List.length data) in
  run ∅ heap1 faults = Returns false /\
  (seek_end_fault faults = true -> run {[path := data]} heap1 faults = Returns false) /\
  (tell_fault faults = true -> run {[path := data]} heap1 faults = Returns false) /\
  (seek_set_fault faults = true -> run {[path := data]} heap1 faults = Returns false) /\
  (size <= LONG_MAX -> run {[path := data]} heap_exhausted no_read_faults = Returns false) /\
  (forall k, size <= LONG_MAX -> 0 <= k < size ->
     run {[path := data]} (heap_fill x00)
         {| open_fault := false; seek_end_fault := false; tell_fault := false;
            seek_set_fault := false; read_fault := Some k;
            reported_size := None |} = Returns false).
Proof.
  intros run size. unfold run, dawn_read_entire_file, posix_read_env.
  cbn [fopen_r buf_heap]. rewrite lookup_empty, lookup_singleton_eq.
  split; [done |]. repeat split.
  - intros Hfault. destruct (open_fault faults); [done |].
    cbn [posix_stream seek_end]. by rewrite Hfault.
  - intros Hfault. destruct (open_fault faults); [done |].
    cbn [posix_stream seek_end tell_end]. rewrite Hfault.
    destruct (seek_end_fault faults); done.
  - intros Hfault. destruct (open_fault faults); [done |].
    cbn [posix_stream seek_end tell_end seek_set]. rewrite Hfault.
    destruct (seek_end_fault faults); [done |].
    destruct (_ <? 0); done.
  - intros Hlong. cbn. fold size.
    destruct (Z.ltb_spec LONG_MAX size); [lia |].
    destruct (Z.ltb_spec size 0); [lia | done].
  - intros k Hlong Hk.
    cbn [open_fault posix_stream seek_end tell_end seek_set seek_end_fault tell_fault
           seek_set_fault reported_size orb]. fold size.
    destruct (Z.ltb_spec LONG_MAX size); [lia |]. cbn [negb Z.eqb].
    destruct (Z.ltb_spec size 0); [lia |]. cbn [malloc heap_fill].
    assert (Hsize_t : to_size_t size = size).
    { apply to_size_t_small. unfold LONG_MAX, SIZE_MAX, SIZE_WIDTH in *. lia. }
    rewrite Hsize_t. unfold fread, fread_size, ferror.
    cbn [read_error chars posix_stream read_fault]. fold size. rewrite Z.min_id.
    destruct (Z.leb_spec 0 k), (Z.ltb_spec k size); try lia. cbn [andb].
    destruct (Z.ltb_spec k size); [| lia]. done.
Qed.

(** C9.  With a null [filepath] or a null [content] both functions return
    [false] at once: no call to [stdio], nothing on [stderr]. *)
Theorem null_arguments (renv : read_env) (wenv : write_env) (filepath : option string)
    (content : option DawnStringBuilder) :
  filepath = None \/ content = None ->
  let r := dawn_read_entire_file renv filepath content in
  let w := dawn_write_entire_file wenv filepath content in
  (result r = Returns false /\ trace r = [] /\ content_after r = content) /\
  (result w = Returns false /\ trace w = [] /\ written w = None /\ content_after w = content).
Proof. intros [-> | ->]; [| destruct filepath]; done. Qed.

Lemma null_arguments_witness :
  let renv := posix_read_env {["f" := [x61]]} no_read_faults (heap_fill xff) (heap_fill xff) in
  let wenv := posix_write_env no_write_faults in
  (Some "f"%string = None \/ @None DawnStringBuilder = None) /\
  trace (dawn_read_entire_file renv (Some "f"%string) None) = [] /\
  trace (dawn_write_entire_file wenv (Some "f"%string) None) = [].
Proof.
  intros renv wenv.
  assert (H : Some "f"%string = None \/ @None DawnStringBuilder = None) by (right; reflexivity).
  split; [exact H |].
  destruct (null_arguments renv wenv (Some "f"%string) None H) as [(_ & Hr & _) (_ & Hw & _)].
  split; [exact Hr | exact Hw].
Defined.

(** C10.  [dawn_write_entire_file] leaves the string builder behind [content]
    as it was (length, capacity, every byte) however it ends. *)
Theorem write_leaves_content (env : write_env) (path : string) (sb : DawnStringBuilder) :
  content_after (dawn_write_entire_file env (Some path) (Some sb)) = Some sb.
Proof.
  unfold dawn_write_entire_file.
  destruct (fopen_w env path) as [f |]; [| done].
  destruct (fwrite (items sb) (length sb) f) as [[size data] | | |]; try done.
  destruct (size <? length sb); done.
Qed.

(** The exits of [dawn_write_entire_file]: the file does not open, the
    stream takes less than all, everything is written. *)
Lemma write_exits (path : string) (sb : DawnStringBuilder) (b : block byte) :
  items sb = Some b -> 0 < length sb <= slots b ->
  let run faults :=
    result (dawn_write_entire_file (posix_write_env faults) (Some path) (Some sb)) in
  run {| create_fault := true; short_write := None; lost_at_close := None |}
    = Returns false /\
  run {| create_fault := false; short_write := Some 0; lost_at_close := None |}
    = Returns false /\
  run no_write_faults = Returns true.
Proof.
  intros Hb Hlen run. unfold run, dawn_write_entire_file, posix_write_env, fwrite.
  cbn [fopen_w create_fault short_write no_write_faults]. rewrite Hb.
  destruct (Z.leb_spec (length sb) (slots b)); [| lia].
  unfold fwrite_size. cbn [accepts].
  destruct (Z.ltb_spec (Z.max 0 (Z.min (length sb) 0)) (length sb)); [| lia].
  destruct (Z.ltb_spec (length sb) (length sb)); [lia |]. done.
Qed.

(** * Further properties *)

(** ** The dynamic array as a sequence *)

Section SequenceFacts.
Context {T : Type}.
Implicit Types (da : DynArray T) (heap : allocator T).

Lemma da_elems_length da :
  da_valid da -> Z.of_nat (List.length (da_elems da)) = length da.
Proof.
  intros ((Hlen0 & Hlen) & _ & Hitems). unfold da_elems.
  destruct (items da) as [b |].
  - rewrite length_block_elems. lia.
  - simpl. lia.
Qed.

(** Every operation that returns does to the elements what [op_model] does
    to the sequence. *)
Lemma da_apply_returns heap da op da' :
  da_valid da -> da_apply heap da op = Returns da' ->
  da_valid da' /\ da_elems da' = op_model (da_elems da) op.
Proof.
  intros Hvalid Hrun. destruct op as [elem | elems count | elem]; cbn [da_apply op_model] in *.
  - by apply append_returns in Hrun as (? & _ & ? & _).
  - by apply append_many_returns in Hrun as (? & _ & _ & _ & ? & _).
  - by apply prepend_returns in Hrun as (? & _ & ? & _).
Qed.

Lemma da_valid_empty : da_valid (@da_empty T).
Proof. unfold da_valid, da_empty, SIZE_MAX, SIZE_WIDTH. cbn. lia. Qed.


(** When there is room the allocator is not asked. *)
Lemma append_with_room heap da elem :
  da_valid da -> length da < capacity da ->
  exists da', DAWN_DA_APPEND heap da elem = Returns da' /\
              DAWN_DA_APPEND heap_exhausted da elem = Returns da' /\
              capacity da' = capacity da.
Proof.
  intros ((Hlen0 & _) & Hcap & Hitems) Hroom. unfold DAWN_DA_APPEND.
  destruct (Z.eqb_spec (length da) (capacity da)); [lia |]. cbn [bind].
  destruct (items da) as [b |]; [| lia]. unfold store, in_block.
  destruct (Z.leb_spec 0 (length da)), (Z.ltb_spec (length da) (slots b)); try lia.
  cbn [andb bind]. eauto.
Qed.

Lemma prepend_with_room heap da elem :
  da_valid da -> length da < capacity da ->
  exists da', DAWN_DA_PREPEND heap da elem = Returns da' /\
              DAWN_DA_PREPEND heap_exhausted da elem = Returns da' /\
              capacity da' = capacity da.
Proof.
  intros ((Hlen0 & _) & Hcap & Hitems) Hroom. unfold DAWN_DA_PREPEND.
  destruct (Z.eqb_spec (length da) (capacity da)); [lia |]. cbn [bind].
  destruct (items da) as [b |]; [| lia].
  destruct (shift_right_spec (Z.to_nat (length da)) b) as (b2 & Hshift & Hslots2 & _);
    [lia |].
  rewrite Hshift. cbn [bind]. unfold store, in_block.
  destruct (Z.ltb_spec 0 (slots b2)); [| lia]. simpl. eauto.
Qed.

Lemma append_many_with_room heap da elems count :
  da_valid da -> 0 <= count <= slots elems -> length da + count < capacity da ->
  exists da', DAWN_DA_APPEND_MANY heap da elems count = Returns da' /\
              DAWN_DA_APPEND_MANY heap_exhausted da elems count = Returns da' /\
              capacity da' = capacity da.
Proof.
  intros ((Hlen0 & _) & Hcap & Hitems) Hcount Hroom. unfold DAWN_DA_APPEND_MANY.
  rewrite to_size_t_small by lia.
  destruct (Z.geb_spec (length da + count) (capacity da)); [lia |]. cbn [bind].
  destruct (items da) as [b |]; [| lia]. unfold memcpy.
  destruct (Z.leb_spec 0 count), (Z.leb_spec count (slots elems)),
    (Z.leb_spec 0 (length da)), (Z.leb_spec (length da + count) (slots b)); try lia.
  cbn [andb bind]. eauto.
Qed.

(** The loop stops at the capacity it started from or at most at twice
    [need]. *)
Lemma double_until_at_most fuel need capacity c :
  0 <= capacity <= SIZE_MAX -> double_until fuel need capacity = Some c ->
  c = capacity \/ c <= 2 * need.
Proof.
  revert capacity. induction fuel as [| fuel IH]; intros capacity Hcap; simpl.
  - destruct (Z.geb_spec need capacity); [done |]. intros [= <-]. by left.
  - destruct (Z.geb_spec need capacity) as [Hge | Hlt]; [| intros [= <-]; by left].
    intros Hloop. right.
    assert (Hle : to_size_t (capacity * 2) <= capacity * 2).
    { unfold to_size_t, SIZE_WIDTH. apply Z.mod_le; lia. }
    destruct (IH _ (to_size_t_range _) Hloop) as [-> | ?]; lia.
Qed.
(** [DAWN_DA_APPEND_MANY] that has to grow fails the assertion when
    [realloc] returns [NULL]. *)
Lemma append_many_alloc_fails heap da elems count :
  da_valid da -> (forall n, heap n = None) ->
  0 <= count -> capacity da <= length da + count <= PTRDIFF_MAX ->
  DAWN_DA_APPEND_MANY heap da elems count = AssertFailed.
Proof.
  intros ((Hlen0 & Hlen) & Hcap & _) Hheap Hcount Hneed. unfold DAWN_DA_APPEND_MANY.
  rewrite to_size_t_small by (unfold PTRDIFF_MAX, SIZE_MAX, SIZE_WIDTH in *; lia).
  destruct (Z.geb_spec (length da + count) (capacity da)); [| lia].
  destruct (double_until_spec doubling_fuel (length da + count)
              (if capacity da =? 0 then DAWN_DA_DEFAULT_CAPACITY else capacity da))
    as (j & Hloop & _).
  { unfold DAWN_DA_DEFAULT_CAPACITY. destruct (Z.eqb_spec (capacity da) 0); lia. }
  { lia. }
  { unfold DAWN_DA_DEFAULT_CAPACITY, PTRDIFF_MAX, doubling_fuel in *.
    destruct (Z.eqb_spec (capacity da) 0); simpl; lia. }
  rewrite Hloop. unfold realloc. by rewrite Hheap.
Qed.

End SequenceFacts.

Section CapacityFacts.
Context {T : Type}.
Implicit Types (da : DynArray T) (heap : allocator T).

Lemma da_apply_capacity_bound heap da op da' :
  da_valid da -> capacity da <= Z.max DAWN_DA_DEFAULT_CAPACITY (2 * length da) ->
  da_apply heap da op = Returns da' ->
  capacity da' <= Z.max DAWN_DA_DEFAULT_CAPACITY (2 * length da').
Proof.
  intros Hvalid Hbound Hrun. pose proof Hvalid as ((Hlen0 & Hlen) & Hcap & _).
  assert (Hgrown : forall len',
             len' = length da + 1 ->
             capacity da' =
               (if length da =? capacity da
                then if capacity da =? 0 then DAWN_DA_DEFAULT_CAPACITY else capacity da * 2
                else capacity da) ->
             capacity da' <= Z.max DAWN_DA_DEFAULT_CAPACITY (2 * len')).
  { intros len' -> ->.
    destruct (Z.eqb_spec (length da) (capacity da)), (Z.eqb_spec (capacity da) 0); lia. }
  destruct op as [elem | elems count | elem]; cbn [da_apply] in Hrun.
  - apply append_returns in Hrun as (_ & Hlen' & _ & Hcap'); [| done].
    rewrite Hlen'. by apply Hgrown.
  - apply append_many_returns in Hrun as (_ & Hcount & Hlen' & _ & _ & Hcap'); [| done].
    rewrite Hlen'. destruct (Z.geb_spec (length da + count) (capacity da)).
    + apply double_until_at_most in Hcap' as [-> | ?]; [| lia |].
      * unfold DAWN_DA_DEFAULT_CAPACITY in *. destruct (Z.eqb_spec (capacity da) 0); lia.
      * unfold DAWN_DA_DEFAULT_CAPACITY, SIZE_MAX, SIZE_WIDTH in *.
        destruct (Z.eqb_spec (capacity da) 0); lia.
    + rewrite Hcap'. lia.
  - apply prepend_returns in Hrun as (_ & Hlen' & _ & Hcap'); [| done].
    rewrite Hlen'. by apply Hgrown.
Qed.

Lemma da_run_capacity_bound steps da states :
  da_valid da -> capacity da <= Z.max DAWN_DA_DEFAULT_CAPACITY (2 * length da) ->
  da_run steps da = Returns states ->
  Forall (fun da' => capacity da' <= Z.max DAWN_DA_DEFAULT_CAPACITY (2 * length da')) states.
Proof.
  revert da states. induction steps as [| [heap op] steps IH]; intros da states Hvalid Hbound;
    simpl.
  - intros [= <-]. constructor.
  - destruct (da_apply heap da op) as [da' | | |] eqn:Hstep; try done. cbn [bind].
    destruct (da_run steps da') as [rest | | |] eqn:Hrest; try done. cbn [bind].
    intros [= <-].
    pose proof (da_apply_capacity_bound _ _ _ _ Hvalid Hbound Hstep) as Hbound'.
    destruct (da_apply_returns _ _ _ _ Hvalid Hstep) as [Hvalid' _].
    constructor; [done |]. by apply (IH da').
Qed.

Lemma doublings_of_zero k : doublings k 0 = 0.
Proof. induction k as [| k IH]; [done |]. exact IH. Qed.

(** The capacities the loop goes through from 16 times a power of two: the
    next powers, and 0 once [2 ^ 64] is reached. *)
Lemma doublings_pow2 (k m : nat) :
  (m <= 59)%nat ->
  doublings k (16 * 2 ^ Z.of_nat m)
  = if (m + k <=? 59)%nat then 16 * 2 ^ Z.of_nat (m + k) else 0.
Proof.
  revert m. induction k as [| k IH]; intros m Hm.
  - rewrite Nat.add_0_r. destruct (Nat.leb_spec m 59); [done | lia].
  - cbn [doublings]. destruct (decide (m = 59%nat)) as [-> | Hne].
    + change (to_size_t (16 * 2 ^ Z.of_nat 59 * 2)) with 0. rewrite doublings_of_zero.
      destruct (Nat.leb_spec (59 + S k) 59); [lia | done].
    + assert (Hnext : to_size_t (16 * 2 ^ Z.of_nat m * 2) = 16 * 2 ^ Z.of_nat (S m)).
      { rewrite Nat2Z.inj_succ, Z.pow_succ_r by lia.
        assert (2 ^ Z.of_nat m <= 2 ^ 58) by (apply Z.pow_le_mono_r; lia).
        assert (0 < 2 ^ Z.of_nat m) by (apply Z.pow_pos_nonneg; lia).
        rewrite to_size_t_small; unfold SIZE_MAX, SIZE_WIDTH; lia. }
      rewrite Hnext, IH by lia. by replace (S m + k)%nat with (m + S k)%nat by lia.
Qed.

Lemma pow2_capacity_small (k : nat) :
  DAWN_DA_DEFAULT_CAPACITY * 2 ^ Z.of_nat k <= SIZE_MAX -> (k <= 59)%nat.
Proof.
  unfold DAWN_DA_DEFAULT_CAPACITY, SIZE_MAX, SIZE_WIDTH. intros Hk.
  destruct (le_gt_dec k 59) as [| Hgt]; [done |].
  assert (2 ^ 60 <= 2 ^ Z.of_nat k) by (apply Z.pow_le_mono_r; lia). lia.
Qed.
End CapacityFacts.

(** X1.  A dynamic array stands for a sequence: after each operation of a
    run that completes, the elements are those of the sequence with the
    operation done on it ([DAWN_DA_APPEND] adds at the end,
    [DAWN_DA_APPEND_MANY] adds the buffer at the end, [DAWN_DA_PREPEND] adds
    at the front), and [length] is the number of elements. *)
Theorem da_run_refines_lists {T : Type} (steps : list (allocator T * da_op T))
    (da : DynArray T) (states : list (DynArray T)) :
  da_valid da ->
  da_run steps da = Returns states ->
  (da_elems <$> states) = run_model (da_elems da) (snd <$> steps) /\
  Forall (fun da' => length da' = Z.of_nat (List.length (da_elems da'))) states.
Proof.
  revert da states. induction steps as [| [heap op] steps IH]; intros da states Hvalid; simpl.
  - intros [= <-]. split; [done | constructor].
  - destruct (da_apply heap da op) as [da' | | |] eqn:Hstep; try done. cbn [bind].
    destruct (da_run steps da') as [rest | | |] eqn:Hrest; try done. cbn [bind].
    intros [= <-].
    destruct (da_apply_returns _ _ _ _ Hvalid Hstep) as [Hvalid' Helems].
    destruct (IH _ _ Hvalid' Hrest) as [Hmodel Hall].
    rewrite fmap_cons, Hmodel, Helems. split; [done |].
    constructor; [| done]. by rewrite da_elems_length.
Qed.

Lemma da_run_refines_lists_witness :
  let da := {| length := 2; capacity := 2; items := Some (block_of_list 0 [4; 5]) |} in
  let steps := [(heap_fill 0, Prepend 3); (heap_fill 0, AppendMany (block_of_list 0 [6; 7]) 2);
                (heap_fill 0, Append 8)] in
  exists states,
    (da_valid da /\ da_run steps da = Returns states) /\
    (da_elems <$> states) = [[3; 4; 5]; [3; 4; 5; 6; 7]; [3; 4; 5; 6; 7; 8]].
Proof.
  intros da steps.
  assert (H1 : da_valid da) by (unfold da_valid, SIZE_MAX, SIZE_WIDTH; simpl; lia).
  destruct (da_run steps da) as [states | | |] eqn:Hrun;
    try (vm_compute in Hrun; discriminate).
  exists states. split; [done |].
  destruct (da_run_refines_lists steps da states H1 Hrun) as [-> _]. reflexivity.
Defined.



(** X3.  Doubling wastes at most half: after every operation of a run from
    the empty array the capacity is at most 16 or twice the length,
    whichever is larger. *)
Theorem da_run_capacity_at_most_double {T : Type} (steps : list (allocator T * da_op T))
    (states : list (DynArray T)) :
  da_run steps da_empty = Returns states ->
  Forall (fun da => capacity da <= Z.max DAWN_DA_DEFAULT_CAPACITY (2 * length da)) states.
Proof.
  apply da_run_capacity_bound; [apply da_valid_empty |].
  unfold DAWN_DA_DEFAULT_CAPACITY. simpl. lia.
Qed.

Lemma da_run_capacity_at_most_double_witness :
  let steps := [(heap_fill 0, AppendMany (block_of_list 0 (seqZ 1 100)) 100);
                (heap_fill 0, Prepend 0)] in
  exists states,
    da_run steps (@da_empty Z) = Returns states /\
    (capacity <$> states) = [128; 128] /\
    Forall (fun da => capacity da <= Z.max DAWN_DA_DEFAULT_CAPACITY (2 * length da)) states.
Proof.
  intros steps.
  destruct (da_run steps (@da_empty Z)) as [states | | |] eqn:Hrun;
    try (vm_compute in Hrun; discriminate).
  exists states. split; [done |].
  split; [vm_compute in Hrun; injection Hrun as <-; reflexivity |].
  apply (da_run_capacity_at_most_double steps states Hrun).
Defined.



(** X5.  While there is room the macros do not call [realloc]: with
    [length < capacity] ([length + count < capacity] for
    [DAWN_DA_APPEND_MANY]) the operation returns whatever the allocator
    would answer, even one that has no memory left, and keeps the
    capacity. *)
Theorem room_needs_no_allocation {T : Type} (heap : allocator T) (da : DynArray T)
    (op : da_op T) :
  da_valid da ->
  match op with
  | AppendMany elems count => 0 <= count <= slots elems /\ length da + count < capacity da
  | _ => length da < capacity da
  end ->
  exists da',
    da_apply heap da op = Returns da' /\
    da_apply heap_exhausted da op = Returns da' /\
    capacity da' = capacity da.
Proof.
  intros Hvalid Hroom. destruct op as [elem | elems count | elem]; cbn [da_apply].
  - by apply append_with_room.
  - destruct Hroom. by apply append_many_with_room.
  - by apply prepend_with_room.
Qed.

Lemma room_needs_no_allocation_witness :
  let da := {| length := 2; capacity := 4;
               items := Some (block_of_list 0 [1; 2; 0; 0]) |} in
  (da_valid da /\ length da < capacity da) /\
  exists da', da_apply heap_exhausted da (Prepend 9) = Returns da' /\
              da_elems da' = [9; 1; 2] /\ capacity da' = 4.
Proof.
  intros da.
  assert (H1 : da_valid da) by (unfold da_valid, SIZE_MAX, SIZE_WIDTH; simpl; lia).
  assert (H2 : length da < capacity da) by (simpl; lia).
  split; [done |].
  destruct (room_needs_no_allocation (heap_fill 0) da (Prepend 9) H1 H2)
    as (da' & _ & Hrun & Hcap).
  exists da'. split; [done |]. split; [| done].
  vm_compute in Hrun. injection Hrun as <-. reflexivity.
Defined.



(** X7.  [DAWN_DA_APPEND_MANY] never leaves the array full: after it
    returns, a [DAWN_DA_APPEND] returns without calling [realloc], whatever
    the allocator, and keeps the capacity. *)
Theorem append_many_leaves_room {T : Type} (heap heap' : allocator T) (da da' : DynArray T)
    (elems : block T) (count : Z) (x : T) :
  da_valid da ->
  DAWN_DA_APPEND_MANY heap da elems count = Returns da' ->
  length da' < capacity da' /\
  exists da'',
    DAWN_DA_APPEND heap' da' x = Returns da'' /\
    DAWN_DA_APPEND heap_exhausted da' x = Returns da'' /\
    capacity da'' = capacity da' /\
    da_elems da'' = da_elems da ++ block_elems elems count ++ [x].
Proof.
  intros Hvalid Hrun.
  destruct (append_many_returns _ _ _ _ _ Hvalid Hrun)
    as (Hvalid' & _ & _ & Hbelow & Helems & _).
  split; [done |].
  destruct (append_with_room heap' da' x Hvalid' Hbelow) as (da'' & Hrun' & Hrun'' & Hcap).
  exists da''. split; [done |]. split; [done |]. split; [done |].
  apply append_returns in Hrun' as (_ & _ & -> & _); [| done].
  by rewrite Helems, <- app_assoc.
Qed.

Lemma append_many_leaves_room_witness :
  let da := {| length := 1; capacity := 4;
               items := Some (block_of_list 0 [1; 0; 0; 0]) |} in
  exists da',
    (da_valid da /\
     DAWN_DA_APPEND_MANY (heap_fill 0) da (block_of_list 0 [2; 3; 4]) 3 = Returns da') /\
    capacity da' = 8 /\
    exists da'', DAWN_DA_APPEND heap_exhausted da' 5 = Returns da'' /\
                 da_elems da'' = [1; 2; 3; 4; 5].
Proof.
  intros da.
  assert (H1 : da_valid da) by (unfold da_valid, SIZE_MAX, SIZE_WIDTH; simpl; lia).
  destruct (DAWN_DA_APPEND_MANY (heap_fill 0) da (block_of_list 0 [2; 3; 4]) 3)
    as [da' | | |] eqn:Hrun; try (vm_compute in Hrun; discriminate).
  exists da'. split; [done |].
  split; [vm_compute in Hrun; injection Hrun as <-; reflexivity |].
  destruct (append_many_leaves_room (heap_fill 0) (heap_fill 0) da da'
              (block_of_list 0 [2; 3; 4]) 3 5 H1 Hrun) as (_ & da'' & _ & Hrun' & _ & Helems).
  exists da''. split; [done |]. rewrite Helems. reflexivity.
Defined.

(** X8.  [DAWN_DA_APPEND_MANY] does not return when [length + count]
    reaches [2 ^ 63]: on an array grown from the empty one (capacity 0 or 16
    times a power of two) the doubling of the capacity wraps around to 0
    before it exceeds [length + count], and the loop goes on for ever. *)
Theorem append_many_wraps_for_ever {T : Type} (heap : allocator T) (da : DynArray T)
    (elems : block T) (count : Z) :
  da_inv da ->
  2 ^ 63 <= to_size_t (length da + count) ->
  DAWN_DA_APPEND_MANY heap da elems count = Diverges.
Proof.
  intros [((Hlen0 & Hlen) & Hcap & _) Hpow] Hbig. unfold DAWN_DA_APPEND_MANY.
  set (need := to_size_t (length da + count)) in *.
  assert (Hseed : exists m : nat,
             (m <= 59)%nat /\
             (if capacity da =? 0 then DAWN_DA_DEFAULT_CAPACITY else capacity da)
             = 16 * 2 ^ Z.of_nat m).
  { destruct Hpow as [-> | [k Hk]].
    - exists 0%nat. split; [lia | done].
    - exists k. rewrite Hk in Hcap. split; [by apply pow2_capacity_small |].
      assert (0 < 2 ^ Z.of_nat k) by (apply Z.pow_pos_nonneg; lia).
      unfold DAWN_DA_DEFAULT_CAPACITY in Hk.
      destruct (Z.eqb_spec (capacity da) 0); [lia | done]. }
  destruct Hseed as (m & Hm & Hseed).
  assert (Hpowers : forall k : nat, doublings k (16 * 2 ^ Z.of_nat m) <= need).
  { intros k. rewrite doublings_pow2 by done.
    destruct (Nat.leb_spec (m + k) 59); [| lia].
    assert (2 ^ Z.of_nat (m + k) <= 2 ^ 59) by (apply Z.pow_le_mono_r; lia). lia. }
  destruct (Z.geb_spec need (capacity da)) as [_ | Hroom].
  - rewrite Hseed.
    assert (Hloop : double_until doubling_fuel need (16 * 2 ^ Z.of_nat m) = None)
      by (apply double_until_None; intros k _; apply Hpowers).
    by rewrite Hloop.
  - specialize (Hpowers 0%nat). cbn [doublings] in Hpowers. rewrite <- Hseed in Hpowers.
    unfold DAWN_DA_DEFAULT_CAPACITY in Hpowers.
    destruct (Z.eqb_spec (capacity da) 0); lia.
Qed.

Lemma append_many_wraps_for_ever_witness :
  let elems := {| slots := 2 ^ 63; cell := fun _ => 0 |} in
  (da_inv (@da_empty Z) /\ 2 ^ 63 <= to_size_t (length (@da_empty Z) + 2 ^ 63)) /\
  DAWN_DA_APPEND_MANY (heap_fill 0) da_empty elems (2 ^ 63) = Diverges.
Proof.
  intros elems.
  assert (H1 : da_inv (@da_empty Z)).
  { unfold da_inv, da_valid, SIZE_MAX, SIZE_WIDTH. simpl. split; [lia | by left]. }
  assert (H2 : 2 ^ 63 <= to_size_t (length (@da_empty Z) + 2 ^ 63))
    by (vm_compute; discriminate).
  split; [done |].
  exact (append_many_wraps_for_ever (heap_fill 0) da_empty elems (2 ^ 63) H1 H2).
Defined.

(** X9.  A failed allocation is fatal: when an operation has to grow the
    array ([length = capacity], or [length + count >= capacity] for
    [DAWN_DA_APPEND_MANY]) and [realloc] returns [NULL], the assertion stops
    the process; no operation returns an error. *)
Theorem allocation_failure_is_fatal {T : Type} (heap : allocator T) (da : DynArray T)
    (op : da_op T) :
  da_valid da ->
  (forall n, heap n = None) ->
  match op with
  | AppendMany elems count =>
      0 <= count /\ capacity da <= length da + count <= PTRDIFF_MAX
  | _ => length da = capacity da
  end ->
  da_apply heap da op = AssertFailed.
Proof.
  intros Hvalid Hheap Hgrow.
  assert (Hfull : length da = capacity da -> grow_when_full heap da = AssertFailed).
  { intros Hfull. unfold grow_when_full, realloc.
    destruct (Z.eqb_spec (length da) (capacity da)); [| done]. by rewrite Hheap. }
  destruct op as [elem | elems count | elem]; cbn [da_apply].
  - by rewrite append_unfold, Hfull.
  - destruct Hgrow as [Hcount Hneed]. by apply append_many_alloc_fails.
  - by rewrite prepend_unfold, Hfull.
Qed.

Lemma allocation_failure_is_fatal_witness :
  let da := {| length := 2; capacity := 2; items := Some (block_of_list 0 [1; 2]) |} in
  (da_valid da /\ (forall n, @heap_exhausted Z n = None) /\ length da = capacity da) /\
  DAWN_DA_APPEND heap_exhausted da 3 = AssertFailed /\
  DAWN_DA_PREPEND heap_exhausted da 0 = AssertFailed.
Proof.
  intros da.
  assert (H1 : da_valid da) by (unfold da_valid, SIZE_MAX, SIZE_WIDTH; simpl; lia).
  assert (H2 : forall n, @heap_exhausted Z n = None) by reflexivity.
  assert (H3 : length da = capacity da) by reflexivity.
  split; [done |]. split.
  - exact (allocation_failure_is_fatal heap_exhausted da (Append 3) H1 H2 H3).
  - exact (allocation_failure_is_fatal heap_exhausted da (Prepend 0) H1 H2 H3).
Defined.

(** ** C strings *)




(** ** More on the helpers *)

(** X11.  With a negative modulus [dawn_mod] gives the remainder with the
    sign of the modulus: for [n < 0] the result is [x mod n] in [(n, 0]],
    never positive.  (No operation overflows: not [INT_MIN % -1], and
    [(x % n) + n >= INT_MIN].) *)
Theorem dawn_mod_negative_modulus (x n : Z) :
  INT_MIN <= x <= INT_MAX ->
  INT_MIN <= n < 0 ->
  x <> INT_MIN \/ n <> -1 ->
  INT_MIN <= Z.rem x n + n ->
  dawn_mod x n = x mod n /\ n < dawn_mod x n <= 0.
Proof.
  intros Hx Hn _ Hfits.
  pose proof (Z.rem_bound_abs x n ltac:(lia)) as Hrem.
  pose proof (Z.quot_rem' x n) as Hdiv.
  set (a := Z.rem x n + n) in *.
  pose proof (Z.rem_bound_neg_neg a n ltac:(lia) ltac:(lia)) as Hrem'.
  pose proof (Z.quot_rem' a n) as Hdiv'.
  unfold dawn_mod, INT_MIN, INT_MAX in *.
  rewrite (to_int_small (Z.rem x n)) by (unfold INT_MIN, INT_MAX; lia).
  fold a. rewrite (to_int_small a) by (unfold INT_MIN, INT_MAX; lia).
  rewrite to_int_small by (unfold INT_MIN, INT_MAX; lia).
  split; [| lia].
  apply (Z.mod_unique_neg x n (Z.quot x n - 1 + Z.quot a n)); [lia |].
  subst a. lia.
Qed.

Lemma dawn_mod_negative_modulus_witness :
  (INT_MIN <= 7 <= INT_MAX /\ INT_MIN <= -5 < 0 /\ (7 <> INT_MIN \/ -5 <> -1) /\
   INT_MIN <= Z.rem 7 (-5) + -5) /\
  dawn_mod 7 (-5) = -3.
Proof.
  assert (H1 : INT_MIN <= 7 <= INT_MAX) by (unfold INT_MIN, INT_MAX; lia).
  assert (H2 : INT_MIN <= -5 < 0) by (unfold INT_MIN; lia).
  assert (H3 : 7 <> INT_MIN \/ -5 <> -1) by (right; discriminate).
  assert (H4 : INT_MIN <= Z.rem 7 (-5) + -5) by (vm_compute; discriminate).
  split; [done |].
  destruct (dawn_mod_negative_modulus 7 (-5) H1 H2 H3 H4) as [-> _]. reflexivity.
Defined.

(** X12.  [k] successive calls of [dawn_shift_args] on [argc] arguments:
    up to [argc] calls return the first [k] arguments in order and leave
    [argc - k] of them behind the pointer; any further call fails the
    assertion. *)
Theorem shift_args_times_spec (k : nat) (argc : Z) (argv : arg_pointer) :
  0 <= argc <= INT_MAX ->
  List.length (arg_array argv) = (arg_index argv + Z.to_nat argc)%nat ->
  shift_args_times k argc argv
  = if (k <=? Z.to_nat argc)%nat
    then Returns (take k (drop (arg_index argv) (arg_array argv)),
                  (argc - Z.of_nat k,
                   {| arg_array := arg_array argv;
                      arg_index := (arg_index argv + k)%nat |}))
    else AssertFailed.
Proof.
  destruct argv as [array index]. cbn [arg_array arg_index].
  revert argc index. induction k as [| k IH]; intros argc index Hargc Hlen.
  - cbn. rewrite Z.sub_0_r, Nat.add_0_r, take_0. done.
  - cbn [shift_args_times]. unfold dawn_shift_args. cbn [arg_array arg_index].
    destruct (Z.gtb_spec argc 0) as [Hpos | Hzero].
    + destruct (lookup_lt_is_Some_2 array index) as [arg Harg]; [lia |].
      rewrite Harg. cbn [bind fst snd].
      rewrite to_int_small by (unfold INT_MIN, INT_MAX in *; lia).
      rewrite IH by lia.
      replace (S k <=? Z.to_nat argc)%nat with (k <=? Z.to_nat (argc - 1))%nat.
      2:{ destruct (Nat.leb_spec k (Z.to_nat (argc - 1))),
            (Nat.leb_spec (S k) (Z.to_nat argc)); done || lia. }
      destruct (k <=? Z.to_nat (argc - 1))%nat; [| done]. cbn [bind fst snd].
      rewrite (drop_S _ _ _ Harg). cbn [take].
      replace (argc - 1 - Z.of_nat k) with (argc - Z.of_nat (S k)) by lia.
      by replace (S index + k)%nat with (index + S k)%nat by lia.
    + destruct (Nat.leb_spec (S k) (Z.to_nat argc)); [lia | done].
Qed.

Lemma shift_args_times_spec_witness :
  let argv := {| arg_array := ["prog"; "-o"; "out"; "in"]%string; arg_index := 1 |} in
  (0 <= 3 <= INT_MAX /\ List.length (arg_array argv) = (arg_index argv + Z.to_nat 3)%nat) /\
  shift_args_times 2 3 argv
  = Returns (["-o"; "out"]%string,
             (1, {| arg_array := ["prog"; "-o"; "out"; "in"]%string; arg_index := 3 |})) /\
  shift_args_times 5 3 argv = AssertFailed.
Proof.
  intros argv.
  assert (H1 : 0 <= 3 <= INT_MAX) by (unfold INT_MAX; lia).
  assert (H2 : List.length (arg_array argv) = (arg_index argv + Z.to_nat 3)%nat)
    by reflexivity.
  split; [done |]. split.
  - rewrite (shift_args_times_spec 2 3 argv H1 H2). reflexivity.
  - rewrite (shift_args_times_spec 5 3 argv H1 H2). reflexivity.
Defined.

(** ** More on whole files *)



(** X13.  [dawn_read_entire_file] appends: when it returns [true] the string
    builder holds what it held, followed by the [f_size] bytes of the
    buffer, which are the characters [fread] delivered and, after a short
    read, what [malloc] left behind them; its length has grown by the end
    position of the stream, whatever the number of characters read.  The
    builder is never left full: one more byte, such as a terminating null,
    can then be appended without a call to [realloc]. *)
Theorem read_appends_buffer (env : read_env) (path : string) (sb : DawnStringBuilder) :
  let r := dawn_read_entire_file env (Some path) (Some sb) in
  da_valid sb ->
  result r = Returns true ->
  exists f fresh sb',
    let f_size := tell_end f in
    let read_size := fread_size f f_size in
    fopen_r env path = Some f /\
    buf_heap env f_size = Some fresh /\
    content_after r = Some sb' /\
    0 <= read_size <= f_size /\
    da_elems sb' = da_elems sb ++ take (Z.to_nat read_size) (chars f)
                               ++ (fresh <$> seqZ read_size (f_size - read_size)) /\
    length sb' = length sb + f_size /\
    length sb' < capacity sb' /\
    exists sb'',
      DAWN_DA_APPEND heap_exhausted sb' x00 = Returns sb'' /\
      capacity sb'' = capacity sb' /\
      da_elems sb'' = da_elems sb' ++ [x00].
Proof.
  intros r Hvalid Hread.
  destruct (read_true_appends env path sb Hvalid Hread)
    as (f & fresh & sb' & Hopen & Hmalloc & Hafter & Hrange & _ & Hlen' & Helems).
  cbv zeta in *. exists f, fresh, sb'. fold r in Hafter.
  do 6 (split; [done |]).
  (* the append that was made left room *)
  apply read_returns_true in Hread
    as (f0 & fresh0 & sb0 & Hopen0 & _ & _ & _ & _ & _ & Happend & Hafter0).
  cbv zeta in *. fold r in Hafter0.
  assert (Hsame : Some sb0 = Some sb')
    by (etransitivity; [symmetry; exact Hafter0 | exact Hafter]).
  injection Hsame as ->.
  destruct (append_many_returns _ _ _ _ _ Hvalid Happend) as (Hvalid' & _ & _ & Hbelow & _).
  split; [done |].
  destruct (append_with_room heap_exhausted sb' x00 Hvalid' Hbelow) as (sb'' & Hrun & _ & Hcap).
  exists sb''. split; [done |]. split; [done |].
  by apply append_returns in Hrun as (_ & _ & -> & _).
Qed.

Lemma read_appends_buffer_witness :
  let sb : DawnStringBuilder :=
    {| length := 2; capacity := 2; items := Some (block_of_list x00 [x3e; x20]) |} in
  let fs : gmap string (list byte) := {["in.txt"%string := [x68; x69; x0a]]} in
  let page : read_faults :=
    {| open_fault := false; seek_end_fault := false; tell_fault := false;
       seek_set_fault := false; read_fault := None; reported_size := Some 5 |} in
  let env := posix_read_env fs page (heap_fill xff) (heap_fill xff) in
  let r := dawn_read_entire_file env (Some "in.txt"%string) (Some sb) in
  (da_valid sb /\ result r = Returns true) /\
  exists sb', content_after r = Some sb' /\
              da_elems sb' = [x3e; x20; x68; x69; x0a; xff; xff] /\ length sb' = 7.
Proof.
  intros sb fs page env r.
  assert (H1 : da_valid sb) by (unfold da_valid, SIZE_MAX, SIZE_WIDTH; simpl; lia).
  assert (H2 : result r = Returns true) by (vm_compute; reflexivity).
  split; [done |].
  destruct (read_appends_buffer env "in.txt" sb H1 H2)
    as (f & fresh & sb' & Hopen & Hmalloc & Hafter & _ & Helems & Hlen & _).
  assert (Hf : f = posix_stream [x68; x69; x0a] page).
  { vm_compute in Hopen. injection Hopen as <-. reflexivity. }
  subst f.
  assert (Hfresh : fresh = fun _ => xff).
  { vm_compute in Hmalloc. injection Hmalloc as <-. reflexivity. }
  subst fresh.
  exists sb'. split; [exact Hafter |]. split.
  - etransitivity; [exact Helems | vm_compute; reflexivity].
  - etransitivity; [exact Hlen | reflexivity].
Defined.



(** X15.  An empty file needs [malloc(0)] to return a block: where it
    returns [NULL], [dawn_read_entire_file] on an empty file reports a
    failed allocation and returns [false], with the string builder as it
    was, although nothing else went wrong. *)
Theorem read_empty_file_malloc_null (fs : gmap string (list byte)) (path : string)
    (heap1 heap2 : allocator byte) (sb : DawnStringBuilder) :
  let r := dawn_read_entire_file (posix_read_env fs no_read_faults heap1 heap2)
             (Some path) (Some sb) in
  fs !! path = Some [] ->
  heap1 0 = None ->
  result r = Returns false /\
  content_after r = Some sb /\
  trace r = [call_fopen path "r"; call_fseek 0 SEEK_END; call_ftell; call_fseek 0 SEEK_SET;
             to_stderr ("Failed to allocate memory for content from " +:+ path +:+ newline);
             call_fclose].
Proof.
  intros r Hfile Hnull. subst r. unfold dawn_read_entire_file, posix_read_env.
  cbn [fopen_r buf_heap]. rewrite Hfile. unfold malloc.
  change (posix_stream [] no_read_faults)
    with {| seek_end := 0; tell_end := 0; seek_set := 0; chars := []; read_error := None |}.
  cbn [no_read_faults open_fault seek_end tell_end seek_set].
  change (to_size_t 0) with 0. change (0 =? 0) with true. change (0 <? 0) with false.
  cbn [negb]. rewrite Hnull. done.
Qed.

Lemma read_empty_file_malloc_null_witness :
  let fs : gmap string (list byte) := {["empty"%string := []]} in
  let r := dawn_read_entire_file (posix_read_env fs no_read_faults heap_exhausted (heap_fill xff))
             (Some "empty"%string) (Some da_empty) in
  (fs !! "empty"%string = Some [] /\ @heap_exhausted byte 0 = None) /\
  result r = Returns false.
Proof.
  intros fs r.
  assert (H1 : fs !! "empty"%string = Some []) by (vm_compute; reflexivity).
  assert (H2 : @heap_exhausted byte 0 = None) by reflexivity.
  split; [done |].
  destruct (read_empty_file_malloc_null fs "empty" heap_exhausted (heap_fill xff) da_empty
              H1 H2) as (Hresult & _).
  exact Hresult.
Defined.



(** X18.  [dawn_read_entire_file], whenever it returns with both arguments
    not null: it has called [fopen] once; it has called [fclose] exactly
    once when the stream was opened, as its last call, and not at all
    otherwise; it has written one message to [stderr] when it returns
    [false] and none when it returns [true]. *)
Theorem read_closes_and_reports (env : read_env) (path : string) (sb : DawnStringBuilder)
    (ok : bool) :
  let r := dawn_read_entire_file env (Some path) (Some sb) in
  result r = Returns ok ->
  count_events is_fopen (trace r) = 1%nat /\
  count_events is_fclose (trace r) = match fopen_r env path with Some _ => 1%nat | None => 0%nat end /\
  (is_Some (fopen_r env path) -> last (trace r) = Some call_fclose) /\
  count_events is_stderr (trace r) = (if ok then 0 else 1)%nat.
Proof.
  intros r. subst r. unfold dawn_read_entire_file, malloc.
  destruct (fopen_r env path) as [f |].
  2:{ intros [= <-]. repeat split; try done; by intros [? ?]. }
  destruct (negb (seek_end f =? 0)); [intros [= <-]; by repeat split |].
  destruct (tell_end f <? 0); [intros [= <-]; by repeat split |].
  destruct (negb (seek_set f =? 0)); [intros [= <-]; by repeat split |].
  destruct (buf_heap env (to_size_t (tell_end f))) as [fresh |];
    [| intros [= <-]; by repeat split].
  unfold fread.
  destruct (fread_size f (to_size_t (tell_end f)) <? to_size_t (tell_end f));
    cbn [andb].
  - destruct (ferror f (to_size_t (tell_end f))); [intros [= <-]; by repeat split |].
    destruct (DAWN_SB_APPEND_BUF _ _ _ _); try done. intros [= <-]. by repeat split.
  - destruct (DAWN_SB_APPEND_BUF _ _ _ _); try done. intros [= <-]. by repeat split.
Qed.

Lemma read_closes_and_reports_witness :
  let env := posix_read_env {["f"%string := [x61]]}
               {| open_fault := false; seek_end_fault := false; tell_fault := true;
                  seek_set_fault := false; read_fault := None; reported_size := None |}
               (heap_fill xff) (heap_fill xff) in
  let r := dawn_read_entire_file env (Some "f"%string) (Some da_empty) in
  result r = Returns false /\
  count_events is_fclose (trace r) = 1%nat /\ count_events is_stderr (trace r) = 1%nat.
Proof.
  intros env r.
  assert (H : result r = Returns false) by (vm_compute; reflexivity).
  split; [exact H |].
  destruct (read_closes_and_reports env "f" da_empty false H) as (_ & Hclose & _ & Herr).
  split; [| exact Herr]. etransitivity; [exact Hclose | reflexivity].
Defined.

(** X19.  [dawn_write_entire_file], whenever it returns with both arguments
    not null: it has called [fopen] once; it has called [fclose] exactly
    once when the stream was opened, as its last call, and not at all
    otherwise; it has written one message to [stderr] when it returns
    [false] and none when it returns [true]. *)
Theorem write_closes_and_reports (env : write_env) (path : string) (sb : DawnStringBuilder)
    (ok : bool) :
  let w := dawn_write_entire_file env (Some path) (Some sb) in
  result w = Returns ok ->
  count_events is_fopen (trace w) = 1%nat /\
  count_events is_fclose (trace w) = match fopen_w env path with Some _ => 1%nat | None => 0%nat end /\
  (is_Some (fopen_w env path) -> last (trace w) = Some call_fclose) /\
  count_events is_stderr (trace w) = (if ok then 0 else 1)%nat.
Proof.
  intros w. subst w. unfold dawn_write_entire_file.
  destruct (fopen_w env path) as [f |].
  2:{ intros [= <-]. repeat split; try done; by intros [? ?]. }
  destruct (fwrite (items sb) (length sb) f) as [[size data] | | |]; try done.
  destruct (size <? length sb); intros [= <-]; by repeat split.
Qed.

Lemma write_closes_and_reports_witness :
  let env := posix_write_env
               {| create_fault := true; short_write := None; lost_at_close := None |} in
  let w := dawn_write_entire_file env (Some "f"%string) (Some da_empty) in
  result w = Returns false /\
  count_events is_fclose (trace w) = 0%nat /\ count_events is_stderr (trace w) = 1%nat.
Proof.
  intros env w.
  assert (H : result w = Returns false) by reflexivity.
  split; [exact H |].
  destruct (write_closes_and_reports env "f" da_empty false H) as (_ & Hclose & _ & Herr).
  split; [exact Hclose | exact Herr].
Defined.
